(** * uTLS session-extra codec, ECDHE key pool and TLS 1.3 key schedule

    A shallow embedding of [u_session_extra.go] and [key_schedule.go].

    Conventions of the embedding:
    - a Go [int] is a [Z] (lengths and offsets stay far below 2^63, so the
      64-bit wrap-around never triggers); a [uint16] is a [Z] reduced modulo
      65536; a [byte]/[uint8] is a [Byte.byte];
    - a [[]byte] is a [list byte]; where the source tests a slice against
      [nil] the slice is an [option (list byte)] with [None] for [nil];
    - a pointer that may be [nil] is an [option];
    - a Go function returning [(T, error)] returns a pair
      [option T * option error];
    - every indexing, slicing and [binary.BigEndian] access is bounds-checked
      as the Go runtime does it: the computation lives in the monad [go],
      whose second outcome is a run-time panic. *)

From Stdlib Require Import ZArith Lia Strings.Byte.
From Stdlib Require Import DecimalString DecimalPos DecimalN.
From stdpp Require Import base tactics option numbers list strings gmap.

Local Open Scope Z_scope.

(* ===================================================================== *)
(** * Go run-time model                                                   *)
(* ===================================================================== *)

(** Outcome of a Go computation: a value, or a run-time panic. *)
Inductive go (A : Type) : Type :=
  | Ret (a : A)
  | Panic.
Arguments Ret {A} a.
Arguments Panic {A}.

#[export] Instance go_ret : MRet go := @Ret.
#[export] Instance go_bind : MBind go := fun A B f m =>
  match m with
  | Ret a => f a
  | Panic => Panic
  end.

Definition byte : Type := Byte.byte.

#[export] Instance byte_eq_dec : EqDecision byte := Byte.byte_eq_dec.

(** Widening of a byte to an integer. *)
Definition byte_to_Z (b : byte) : Z := Z.of_N (Byte.to_N b).

(** The conversion [uint8(x)]: keeps the low 8 bits. *)
Definition uint8 (x : Z) : byte :=
  default Byte.x00 (Byte.of_N (Z.to_N (x mod 256))).

(** The conversion [uint16(x)]: keeps the low 16 bits. *)
Definition uint16 (x : Z) : Z := x mod 65536.

(** [len(s)]. *)
Definition len {A} (s : list A) : Z := Z.of_nat (length s).

(** [s[i]]: panics when [i] is out of range. *)
Definition index {A} (s : list A) (i : Z) : go A :=
  if (0 <=? i) && (i <? len s)
  then match s !! Z.to_nat i with
       | Some x => Ret x
       | None => Panic
       end
  else Panic.

(** [s[lo:]]: panics when [lo] is out of range. *)
Definition slice_from {A} (s : list A) (lo : Z) : go (list A) :=
  if (0 <=? lo) && (lo <=? len s)
  then Ret (drop (Z.to_nat lo) s)
  else Panic.

(** [s[lo:hi]]: panics unless [0 <= lo <= hi <= len(s)] (the buffers of
    this file are never resliced beyond their length). *)
Definition slice {A} (s : list A) (lo hi : Z) : go (list A) :=
  if (0 <=? lo) && (lo <=? hi) && (hi <=? len s)
  then Ret (take (Z.to_nat (hi - lo)) (drop (Z.to_nat lo) s))
  else Panic.

(** [s[i] = x]: panics when [i] is out of range. *)
Definition set_index {A} (s : list A) (i : Z) (x : A) : go (list A) :=
  if (0 <=? i) && (i <? len s)
  then Ret (<[Z.to_nat i := x]> s)
  else Panic.

(** [make([]byte, n)]: a zeroed buffer of [n] bytes; panics on [n < 0]. *)
Definition make (n : Z) : go (list byte) :=
  if 0 <=? n then Ret (replicate (Z.to_nat n) Byte.x00) else Panic.

(** [copy(dst, src)], as the new contents of [dst]: the first
    [min(len(dst), len(src))] bytes are overwritten. *)
Definition copy {A} (dst src : list A) : list A :=
  take (length dst) src ++ drop (length src) dst.

(** A write through the sub-slice [s[lo:]] is a write into [s]: the
    sub-slice shares the storage of [s] from offset [lo] on. *)
Definition through_tail {A} (s : list A) (lo : Z)
    (write : list A -> go (list A)) : go (list A) :=
  tail ← slice_from s lo;
  tail' ← write tail;
  Ret (take (Z.to_nat lo) s ++ tail').

(** [binary.BigEndian.Uint16(b)]: panics when [b] has fewer than 2 bytes. *)
Definition BigEndian_Uint16 (b : list byte) : go Z :=
  b1 ← index b 1;
  b0 ← index b 0;
  Ret (Z.lor (byte_to_Z b1) (Z.shiftl (byte_to_Z b0) 8)).

(** [binary.BigEndian.PutUint16(b, v)], as the new contents of [b]. *)
Definition BigEndian_PutUint16 (b : list byte) (v : Z) : go (list byte) :=
  _ ← index b 1;
  b ← set_index b 0 (uint8 (Z.shiftr v 8));
  set_index b 1 (uint8 v).

(** The two bytes [binary.BigEndian.PutUint16] stores for [v], most
    significant first (used to state what the encoders produce). *)
Definition be16 (v : Z) : list byte := [uint8 (Z.shiftr v 8); uint8 v].

(** A Go [error] is its message. *)
Definition error : Type := string.

Definition errors_New (msg : string) : error := msg.

(** The [%d] verb of [fmt.Errorf] on a [uint16]. *)
Definition fmt_d (i : Z) : string :=
  NilZero.string_of_uint (N.to_uint (Z.to_N i)).

(** [fmt.Errorf(format, i)] for a format with a single [%d]: [before] and
    [after] are the parts of the format around the verb. *)
Definition fmt_Errorf (before : string) (i : Z) (after : string) : error :=
  before +:+ fmt_d i +:+ after.

(* ===================================================================== *)
(** * u_session_extra.go                                                  *)
(* ===================================================================== *)

(** Modelled from the spec: the declaration of [ResumeMechanism] and of its
    constants lies outside the sources at hand.  The payload carries the
    mechanism in one byte and the spec lists the enumeration as
    {Unknown, SessionID, SessionTicket}: an 8-bit type whose constants
    follow in that order. *)
Definition ResumeMechanism : Type := byte.
Definition ResumeUnknown : ResumeMechanism := Byte.x00.
Definition ResumeSessionID : ResumeMechanism := Byte.x01.
Definition ResumeSessionTicket : ResumeMechanism := Byte.x02.

Definition SessionExtraFieldID : Type := Z.

Definition SessionExtraUTLSData : SessionExtraFieldID := 0x7001.

Definition SessionExtraVersion : byte := Byte.x01.

Record UTLSSessionData : Type := {
  ResumeType : ResumeMechanism;
  SessionID : list byte
}.

Record SessionExtraField : Type := {
  ID : SessionExtraFieldID;
  Version : byte;
  Data : list byte
}.

(** [data == nil || (data.ResumeType == ResumeUnknown &&
    len(data.SessionID) == 0)], the guard of both encoders. *)
Definition nothing_to_encode (data : option UTLSSessionData) : bool :=
  match data with
  | None => true
  | Some d =>
      bool_decide (ResumeType d = ResumeUnknown) && (len (SessionID d) =? 0)
  end.

Definition marshalUTLSSessionData (data : option UTLSSessionData)
    : go (option (list byte)) :=
  match data with
  | None => Ret None
  | Some d =>
      if nothing_to_encode data then Ret None
      else
        let totalLen := 1 + 2 + len (SessionID d) in
        result ← make totalLen;
        let offset := 0 in
        result ← set_index result offset (uint8 (byte_to_Z (ResumeType d)));
        let offset := offset + 1 in
        result ← through_tail result offset (fun b =>
                   BigEndian_PutUint16 b (uint16 (len (SessionID d))));
        let offset := offset + 2 in
        result ← (if 0 <? len (SessionID d)
                  then through_tail result offset (fun b =>
                         Ret (copy b (SessionID d)))
                  else Ret result);
        Ret (Some result)
  end.

Definition unmarshalUTLSSessionData (data : list byte)
    : go (option UTLSSessionData * option error) :=
  if len data <? 3
  then Ret (None, Some (errors_New "invalid UTLS session data: too short"))
  else
    let offset := 0 in
    resumeType ← index data offset;
    let offset := offset + 1 in
    tail ← slice_from data offset;
    sessionIDLen ← BigEndian_Uint16 tail;
    let offset := offset + 2 in
    if offset + sessionIDLen >? len data
    then Ret (None, Some (errors_New
                 "invalid UTLS session data: session ID incomplete"))
    else
      sessionID ← (if 0 <? sessionIDLen
                   then buf ← make sessionIDLen;
                        src ← slice data offset (offset + sessionIDLen);
                        Ret (copy buf src)
                   else Ret []);
      Ret (Some {| ResumeType := resumeType; SessionID := sessionID |}, None).

Definition marshalSessionExtra (data : option UTLSSessionData)
    : go (option (list byte)) :=
  if nothing_to_encode data then Ret None
  else
    utlsDataBytes ← marshalUTLSSessionData data;
    match utlsDataBytes with
    | None => Ret None
    | Some utlsDataBytes =>
        let field := {| ID := SessionExtraUTLSData;
                        Version := SessionExtraVersion;
                        Data := utlsDataBytes |} in
        let totalLen := 1 + 2 + 2 + 1 + 2 + len (Data field) in
        result ← make totalLen;
        let offset := 0 in
        result ← set_index result offset SessionExtraVersion;
        let offset := offset + 1 in
        result ← through_tail result offset (fun b =>
                   BigEndian_PutUint16 b 1);
        let offset := offset + 2 in
        result ← through_tail result offset (fun b =>
                   BigEndian_PutUint16 b (uint16 (ID field)));
        let offset := offset + 2 in
        result ← set_index result offset (Version field);
        let offset := offset + 1 in
        result ← through_tail result offset (fun b =>
                   BigEndian_PutUint16 b (uint16 (len (Data field))));
        let offset := offset + 2 in
        result ← through_tail result offset (fun b =>
                   Ret (copy b (Data field)));
        Ret (Some result)
    end.

(** The loop [for i := uint16(0); i < fieldCount; i++] of
    [unmarshalSessionExtra], entered with [remaining = fieldCount - i]
    iterations to go.  As [i < fieldCount <= 65535] inside the body, the
    increment of the [uint16] counter never wraps before the test fails. *)
Fixpoint readFields (extraData : list byte) (remaining : nat)
    (i offset : Z) : go (option UTLSSessionData * option error) :=
  match remaining with
  | O => Ret (None, None)
  | S remaining =>
      if offset + 5 >? len extraData
      then Ret (None, Some (fmt_Errorf "invalid extra data: field " i
                               " header incomplete"))
      else
        tail ← slice_from extraData offset;
        fieldID ← BigEndian_Uint16 tail;
        let offset := offset + 2 in
        fieldVersion ← index extraData offset;
        let offset := offset + 1 in
        tail ← slice_from extraData offset;
        dataLength ← BigEndian_Uint16 tail;
        let offset := offset + 2 in
        if offset + dataLength >? len extraData
        then Ret (None, Some (fmt_Errorf "invalid extra data: field " i
                                 " data incomplete"))
        else
          fieldData ← slice extraData offset (offset + dataLength);
          let offset := offset + dataLength in
          let next_field :=
            readFields extraData remaining (uint16 (i + 1)) offset in
          if bool_decide (fieldVersion = SessionExtraVersion)
          then if fieldID =? SessionExtraUTLSData
               then unmarshalUTLSSessionData fieldData
               else next_field
          else next_field
  end.

Definition unmarshalSessionExtra (extraData : list byte)
    : go (option UTLSSessionData * option error) :=
  if len extraData =? 0 then Ret (None, None)
  else if len extraData <? 3
  then Ret (None, Some (errors_New "invalid extra data: too short"))
  else
    let offset := 0 in
    version ← index extraData offset;
    let offset := offset + 1 in
    if negb (bool_decide (version = SessionExtraVersion))
    then Ret (None, None)
    else if offset + 2 >? len extraData
    then Ret (None, Some (errors_New
                 "invalid extra data: cannot read field count"))
    else
      tail ← slice_from extraData offset;
      fieldCount ← BigEndian_Uint16 tail;
      let offset := offset + 2 in
      readFields extraData (Z.to_nat fieldCount) 0 offset.

(** The part of [SessionState] these functions read and write: the ordered
    [Extra [][]byte] slots.  No other field is touched. *)
Record SessionState : Type := {
  Extra : list (list byte)
}.

(** [len(extraItem) >= 1 && extraItem[0] == SessionExtraVersion]. *)
Definition starts_with_version (extraItem : list byte) : go bool :=
  if len extraItem >=? 1
  then b ← index extraItem 0; Ret (bool_decide (b = SessionExtraVersion))
  else Ret false.

(** [len(extraItem) == 0 || extraItem[0] != SessionExtraVersion]. *)
Definition not_ours (extraItem : list byte) : go bool :=
  if len extraItem =? 0
  then Ret true
  else b ← index extraItem 0;
       Ret (negb (bool_decide (b = SessionExtraVersion))).

(** The [range] loop of [HasSessionExtra]. *)
Fixpoint HasSessionExtra_range (items : list (list byte)) : go bool :=
  match items with
  | [] => Ret false
  | extraItem :: items =>
      ours ← starts_with_version extraItem;
      if (ours : bool) then Ret true else HasSessionExtra_range items
  end.

Definition HasSessionExtra (s : SessionState) : go bool :=
  if len (Extra s) =? 0 then Ret false
  else HasSessionExtra_range (Extra s).

(** The [range] loop of [GetSessionExtraFields]. *)
Fixpoint GetSessionExtraFields_range (items : list (list byte))
    : go (option UTLSSessionData) :=
  match items with
  | [] => Ret None
  | extraItem :: items =>
      ours ← starts_with_version extraItem;
      if (ours : bool)
      then r ← unmarshalSessionExtra extraItem;
           match r with
           | (_, Some _) => GetSessionExtraFields_range items
           | (utlsData, None) => Ret utlsData
           end
      else GetSessionExtraFields_range items
  end.

Definition GetSessionExtraFields (s : SessionState)
    : go (option UTLSSessionData) :=
  has ← HasSessionExtra s;
  if negb has then Ret None
  else GetSessionExtraFields_range (Extra s).

(** The [range] loop of [ClearSessionExtraFields], with the slots kept so
    far in [newExtra]. *)
Fixpoint ClearSessionExtraFields_range (items newExtra : list (list byte))
    : go (list (list byte)) :=
  match items with
  | [] => Ret newExtra
  | extraItem :: items =>
      keep ← not_ours extraItem;
      ClearSessionExtraFields_range items
        (if (keep : bool) then newExtra ++ [extraItem] else newExtra)
  end.

Definition ClearSessionExtraFields (s : SessionState) : go SessionState :=
  newExtra ← ClearSessionExtraFields_range (Extra s) [];
  Ret {| Extra := newExtra |}.

Definition SetSessionExtraFields (s : SessionState)
    (data : option UTLSSessionData) : go SessionState :=
  extraData ← marshalSessionExtra data;
  match extraData with
  | None => ClearSessionExtraFields s
  | Some extraData =>
      s ← ClearSessionExtraFields s;
      Ret {| Extra := Extra s ++ [extraData] |}
  end.

(* ===================================================================== *)
(** * unmarshalUTLSSessionData over a store of backing arrays             *)
(* ===================================================================== *)

(** To speak of aliasing, a slice is here a window into a backing array
    held in a store, [make] allocates a fresh array and [copy] writes into
    the array of its destination. *)
Module Heap.

(** Arrays are named by numbers. *)
Abbreviation loc := nat.

(** The operations on the contents of one array. *)
Local Abbreviation array_len := (@len byte).
Local Abbreviation array_index := (@index byte).

(** The backing arrays. *)
Abbreviation store := (gmap loc (list byte)).

(** A slice value: [nil], or [n] bytes from offset [off] of array [arr]. *)
Inductive slice_val : Type :=
  | NilSlice
  | Window (arr : loc) (off n : Z).

Definition len (s : slice_val) : Z :=
  match s with
  | NilSlice => 0
  | Window _ _ n => n
  end.

(** The bytes a slice denotes in a store; [None] when the window does not
    lie within an allocated array. *)
Definition contents (h : store) (s : slice_val) : option (list byte) :=
  match s with
  | NilSlice => Some []
  | Window a off n =>
      match h !! a with
      | Some arr =>
          if (0 <=? off) && (0 <=? n) && (off + n <=? array_len arr)
          then Some (take (Z.to_nat n) (drop (Z.to_nat off) arr))
          else None
      | None => None
      end
  end.

(** [s[i]]. *)
Definition index (h : store) (s : slice_val) (i : Z) : go byte :=
  if (0 <=? i) && (i <? len s)
  then match s with
       | NilSlice => Panic
       | Window a off _ =>
           match h !! a with
           | Some arr => array_index arr (off + i)
           | None => Panic
           end
       end
  else Panic.

(** [s[lo:hi]]: a window into the same array. *)
Definition slice (s : slice_val) (lo hi : Z) : go slice_val :=
  if (0 <=? lo) && (lo <=? hi) && (hi <=? len s)
  then match s with
       | NilSlice => Ret NilSlice
       | Window a off _ => Ret (Window a (off + lo) (hi - lo))
       end
  else Panic.

(** [s[lo:]]. *)
Definition slice_from (s : slice_val) (lo : Z) : go slice_val :=
  slice s lo (len s).

Definition BigEndian_Uint16 (h : store) (b : slice_val) : go Z :=
  b1 ← index h b 1;
  b0 ← index h b 0;
  Ret (Z.lor (byte_to_Z b1) (Z.shiftl (byte_to_Z b0) 8)).

(** [make([]byte, n)]: a zeroed array at a location not in use. *)
Definition make (h : store) (n : Z) : go (slice_val * store) :=
  if 0 <=? n
  then let a := fresh (dom h) in
       Ret (Window a 0 n, <[a := replicate (Z.to_nat n) Byte.x00]> h)
  else Panic.

(** [copy(dst, src)]: overwrites the array of [dst] in place. *)
Definition copy (h : store) (dst src : slice_val) : go store :=
  match contents h src, dst with
  | None, _ => Panic
  | Some _, NilSlice => Ret h
  | Some bytes, Window a off n =>
      match h !! a with
      | Some arr =>
          let k := Z.to_nat (Z.min n (array_len bytes)) in
          Ret (<[a := take (Z.to_nat off) arr ++ take k bytes
                       ++ drop (Z.to_nat off + k) arr]> h)
      | None => Panic
      end
  end.

(** The array a slice is a window of, if any. *)
Definition array_of (s : slice_val) : option loc :=
  match s with
  | NilSlice => None
  | Window a _ _ => Some a
  end.

(** Any later writing through [s], or through a slice sharing its array:
    the array of [s] holds [bytes] afterwards. *)
Definition overwrite (h : store) (s : slice_val) (bytes : list byte)
    : store :=
  match s with
  | NilSlice => h
  | Window a _ _ => <[a := bytes]> h
  end.

Record UTLSSessionData : Type := {
  ResumeType : ResumeMechanism;
  SessionID : slice_val
}.

Definition unmarshalUTLSSessionData (h : store) (data : slice_val)
    : go ((option UTLSSessionData * option error) * store) :=
  if len data <? 3
  then Ret (None, Some (errors_New "invalid UTLS session data: too short"),
            h)
  else
    let offset := 0 in
    resumeType ← index h data offset;
    let offset := offset + 1 in
    tail ← slice_from data offset;
    sessionIDLen ← BigEndian_Uint16 h tail;
    let offset := offset + 2 in
    if offset + sessionIDLen >? len data
    then Ret (None, Some (errors_New
                "invalid UTLS session data: session ID incomplete"), h)
    else
      '(sessionID, h) ←
        (if 0 <? sessionIDLen
         then '(sessionID, h) ← make h sessionIDLen;
              src ← slice data offset (offset + sessionIDLen);
              h ← copy h sessionID src;
              Ret (sessionID, h)
         else Ret (NilSlice, h));
      Ret (Some {| ResumeType := resumeType; SessionID := sessionID |},
           None, h).

End Heap.

(* ===================================================================== *)
(** * key_schedule.go: the pool of pre-generated ECDHE keys               *)
(* ===================================================================== *)

Definition CurveID : Type := Z.

(** The four implementations of [ecdh.Curve]. *)
Inductive Curve : Type :=
  | ecdh_X25519
  | ecdh_P256
  | ecdh_P384
  | ecdh_P521.

(** What the key pool takes from outside these sources: the [CurveID]
    constants of the package, [crypto/ecdh] key generation reading from a
    random source, and the generator behind [math/rand/v2].  A call of
    [GenerateKey] yields Go's pair [(key, err)] and the advanced source. *)
Class KeyPoolEnv : Type := {
  X25519 : CurveID;
  CurveP256 : CurveID;
  CurveP384 : CurveID;
  CurveP521 : CurveID;
  PrivateKey : Type;
  Reader : Type;
  GenerateKey : Curve -> Reader ->
                (option PrivateKey * option error) * Reader;
  MathRand : Type;
  mathrand_draw : MathRand -> Z * MathRand
}.

Section KeyPool.
Context `{env : KeyPoolEnv}.

Record keyCache : Type := {
  keys : list (option PrivateKey);
  initialized : bool
}.

Definition keyCacheSize : Z := 100.

(** The process-wide state: the four pools, [crypto/rand.Reader] and the
    generator of [math/rand/v2]. *)
Record globals : Type := {
  keyCacheX25519 : keyCache;
  keyCacheP256 : keyCache;
  keyCacheP384 : keyCache;
  keyCacheP521 : keyCache;
  cryptorand_Reader : Reader;
  mathrand_state : MathRand
}.

(** A non-nil [*keyCache]: it points to one of the four global pools. *)
Inductive keyCache_ptr : Type :=
  | ptr_X25519
  | ptr_P256
  | ptr_P384
  | ptr_P521.

Definition deref (g : globals) (kc : keyCache_ptr) : keyCache :=
  match kc with
  | ptr_X25519 => keyCacheX25519 g
  | ptr_P256 => keyCacheP256 g
  | ptr_P384 => keyCacheP384 g
  | ptr_P521 => keyCacheP521 g
  end.

Definition assign (g : globals) (kc : keyCache_ptr) (c : keyCache)
    : globals :=
  match kc with
  | ptr_X25519 =>
      {| keyCacheX25519 := c; keyCacheP256 := keyCacheP256 g;
         keyCacheP384 := keyCacheP384 g; keyCacheP521 := keyCacheP521 g;
         cryptorand_Reader := cryptorand_Reader g;
         mathrand_state := mathrand_state g |}
  | ptr_P256 =>
      {| keyCacheX25519 := keyCacheX25519 g; keyCacheP256 := c;
         keyCacheP384 := keyCacheP384 g; keyCacheP521 := keyCacheP521 g;
         cryptorand_Reader := cryptorand_Reader g;
         mathrand_state := mathrand_state g |}
  | ptr_P384 =>
      {| keyCacheX25519 := keyCacheX25519 g; keyCacheP256 := keyCacheP256 g;
         keyCacheP384 := c; keyCacheP521 := keyCacheP521 g;
         cryptorand_Reader := cryptorand_Reader g;
         mathrand_state := mathrand_state g |}
  | ptr_P521 =>
      {| keyCacheX25519 := keyCacheX25519 g; keyCacheP256 := keyCacheP256 g;
         keyCacheP384 := keyCacheP384 g; keyCacheP521 := c;
         cryptorand_Reader := cryptorand_Reader g;
         mathrand_state := mathrand_state g |}
  end.

Definition set_cryptorand (g : globals) (r : Reader) : globals :=
  {| keyCacheX25519 := keyCacheX25519 g; keyCacheP256 := keyCacheP256 g;
     keyCacheP384 := keyCacheP384 g; keyCacheP521 := keyCacheP521 g;
     cryptorand_Reader := r; mathrand_state := mathrand_state g |}.

Definition set_mathrand (g : globals) (m : MathRand) : globals :=
  {| keyCacheX25519 := keyCacheX25519 g; keyCacheP256 := keyCacheP256 g;
     keyCacheP384 := keyCacheP384 g; keyCacheP521 := keyCacheP521 g;
     cryptorand_Reader := cryptorand_Reader g; mathrand_state := m |}.

(** [mathrand.IntN(n)]: panics unless [n > 0]. *)
Definition mathrand_IntN (g : globals) (n : Z) : go (Z * globals) :=
  if n <=? 0 then Panic
  else let '(x, m) := mathrand_draw (mathrand_state g) in
       Ret (x mod n, set_mathrand g m).

(** The loop of [keyCache.init], with [remaining = keyCacheSize - i]
    iterations to go. *)
Fixpoint init_loop (curve : Curve) (remaining : nat) (i : Z)
    (keys : list (option PrivateKey)) (r : Reader)
    : go (list (option PrivateKey) * Reader) :=
  match remaining with
  | O => Ret (keys, r)
  | S remaining =>
      let '(key, err, r) := GenerateKey curve r in
      match err with
      | Some _ => init_loop curve remaining (i + 1) keys r
      | None =>
          keys ← set_index keys i key;
          init_loop curve remaining (i + 1) keys r
      end
  end.

(** [kc.init(curve)]. *)
Definition keyCache_init (kc : keyCache_ptr) (curve : Curve) (g : globals)
    : go globals :=
  if initialized (deref g kc) then Ret g
  else
    let ks := replicate (Z.to_nat keyCacheSize) None in
    '(ks, r) ← init_loop curve (Z.to_nat keyCacheSize) 0 ks
                 (cryptorand_Reader g);
    let g := set_cryptorand g r in
    let g := assign g kc {| keys := ks;
                            initialized := initialized (deref g kc) |} in
    Ret (assign g kc {| keys := keys (deref g kc);
                        initialized := true |}).

(** [kc.getRandomKey()]. *)
Definition getRandomKey (kc : keyCache_ptr) (g : globals)
    : go (option PrivateKey * globals) :=
  if negb (initialized (deref g kc)) || (len (keys (deref g kc)) =? 0)
  then Ret (None, g)
  else
    '(idx, g) ← mathrand_IntN g (len (keys (deref g kc)));
    key ← index (keys (deref g kc)) idx;
    Ret (key, g).

Definition getCacheForCurveID (curveID : CurveID) : option keyCache_ptr :=
  if curveID =? X25519 then Some ptr_X25519
  else if curveID =? CurveP256 then Some ptr_P256
  else if curveID =? CurveP384 then Some ptr_P384
  else if curveID =? CurveP521 then Some ptr_P521
  else None.

(** [curveForCurveID(id)]: [None] stands for [(nil, false)]. *)
Definition curveForCurveID (id : CurveID) : option Curve :=
  if id =? X25519 then Some ecdh_X25519
  else if id =? CurveP256 then Some ecdh_P256
  else if id =? CurveP384 then Some ecdh_P384
  else if id =? CurveP521 then Some ecdh_P521
  else None.

Definition InitAllKeyCaches (g : globals) : go globals :=
  g ← keyCache_init ptr_X25519 ecdh_X25519 g;
  g ← keyCache_init ptr_P256 ecdh_P256 g;
  g ← keyCache_init ptr_P384 ecdh_P384 g;
  keyCache_init ptr_P521 ecdh_P521 g.

(** The first half of [generateECDHEKey]: the attempt on the pool.  A
    result [Some key] is the early [return key, nil]. *)
Definition try_cache (curveID : CurveID) (g : globals)
    : go (option PrivateKey * globals) :=
  match getCacheForCurveID curveID with
  | Some cache =>
      g ← (if negb (initialized (deref g cache))
           then match curveForCurveID curveID with
                | Some curve => keyCache_init cache curve g
                | None => Ret g
                end
           else Ret g);
      getRandomKey cache g
  | None => Ret (None, g)
  end.

(** [generateECDHEKey(rand, curveID)]: Go's pair [(key, err)], the
    advanced [rand] and the new global state. *)
Definition generateECDHEKey (rand : Reader) (curveID : CurveID)
    (g : globals)
    : go ((option PrivateKey * option error) * Reader * globals) :=
  '(cached, g) ← try_cache curveID g;
  match cached with
  | Some key => Ret (Some key, None, rand, g)
  | None =>
      match curveForCurveID curveID with
      | None =>
          Ret (None,
               Some (errors_New "tls: internal error: unsupported curve"),
               rand, g)
      | Some curve =>
          let '(r, rand) := GenerateKey curve rand in
          Ret (r, rand, g)
      end
  end.

End KeyPool.

(* ===================================================================== *)
(** * key_schedule.go: the TLS 1.3 key schedule                           *)
(* ===================================================================== *)

(** What the key schedule takes from outside these sources: the hash
    algorithms named by a [crypto.Hash] with their sizes,
    [tls13.ExpandLabel(hash.New, secret, label, context, length)], the MAC
    computed by [crypto/hmac], the digest a running transcript [hash.Hash]
    reports, and the constant [aeadNonceLength]. *)
Class KeyScheduleEnv : Type := {
  crypto_Hash : Type;
  Hash_Size : crypto_Hash -> Z;
  ExpandLabel : crypto_Hash -> list byte -> string -> list byte -> Z ->
                list byte;
  HMAC : crypto_Hash -> list byte -> list byte -> list byte;
  hash_Hash : Type;
  digest : hash_Hash -> list byte;
  aeadNonceLength : Z
}.

Section KeySchedule.
Context `{env : KeyScheduleEnv}.

(** The fields of [cipherSuiteTLS13] the key schedule reads. *)
Record cipherSuiteTLS13 : Type := {
  keyLen : Z;
  hash : crypto_Hash
}.

(** [transcript.Sum(b)]: appends the current digest to [b]. *)
Definition Sum (transcript : hash_Hash) (b : list byte) : list byte :=
  b ++ digest transcript.

(** The object [hmac.New] returns: its algorithm and key, and the bytes
    written so far. *)
Record hmac_obj : Type := {
  hmac_hash : crypto_Hash;
  hmac_key : list byte;
  hmac_written : list byte
}.

Definition hmac_New (h : crypto_Hash) (key : list byte) : hmac_obj :=
  {| hmac_hash := h; hmac_key := key; hmac_written := [] |}.

Definition hmac_Write (m : hmac_obj) (p : list byte) : hmac_obj :=
  {| hmac_hash := hmac_hash m; hmac_key := hmac_key m;
     hmac_written := hmac_written m ++ p |}.

Definition hmac_Sum (m : hmac_obj) (b : list byte) : list byte :=
  b ++ HMAC (hmac_hash m) (hmac_key m) (hmac_written m).

Definition nextTrafficSecret (c : cipherSuiteTLS13)
    (trafficSecret : list byte) : list byte :=
  ExpandLabel (hash c) trafficSecret "traffic upd" [] (Hash_Size (hash c)).

Definition trafficKey (c : cipherSuiteTLS13) (trafficSecret : list byte)
    : list byte * list byte :=
  let key := ExpandLabel (hash c) trafficSecret "key" [] (keyLen c) in
  let iv := ExpandLabel (hash c) trafficSecret "iv" [] aeadNonceLength in
  (key, iv).

Definition finishedHash (c : cipherSuiteTLS13) (baseKey : list byte)
    (transcript : hash_Hash) : list byte :=
  let finishedKey :=
    ExpandLabel (hash c) baseKey "finished" [] (Hash_Size (hash c)) in
  let verifyData := hmac_New (hash c) finishedKey in
  let verifyData := hmac_Write verifyData (Sum transcript []) in
  hmac_Sum verifyData [].

End KeySchedule.

(* ===================================================================== *)
(** * Sample environments                                                 *)
(* ===================================================================== *)

(** An environment to run the key pool in: keys and random sources are
    counters, key generation fails on every odd reading of its source, and
    the generator of [math/rand/v2] counts upwards.  The curve identifiers
    are the code points of the TLS Supported Groups registry. *)
Definition sample_pool_env : KeyPoolEnv := {|
  X25519 := 29;
  CurveP256 := 23;
  CurveP384 := 24;
  CurveP521 := 25;
  PrivateKey := nat;
  Reader := nat;
  GenerateKey := fun _ r =>
    if Nat.even r then (Some r, None, S r)
    else (None, Some (errors_New "generation failed"), S r);
  MathRand := Z;
  mathrand_draw := fun m => (m, m + 1)
|}.

(** The process state before any pool is filled. *)
Definition sample_globals (seed : Z) : @globals sample_pool_env :=
  let empty := @Build_keyCache sample_pool_env [] false in
  @Build_globals sample_pool_env empty empty empty empty 0%nat seed.

(** The pair [(key, err)] of an outcome of [generateECDHEKey]. *)
Definition key_and_error `{env : KeyPoolEnv}
    (r : go ((option PrivateKey * option error) * Reader * globals))
    : go (option PrivateKey * option error) :=
  '(key_err, _, _) ← r; Ret key_err.

(** An environment to run the key schedule in: a single hash of size 4
    whose label expansion pads or cuts the secret to the length asked for
    and whose MAC is the first 4 bytes of key and message. *)
Definition sample_schedule_env : KeyScheduleEnv := {|
  crypto_Hash := unit;
  Hash_Size := fun _ => 4;
  ExpandLabel := fun _ secret _ _ length =>
    take (Z.to_nat length) (secret ++ replicate (Z.to_nat length) Byte.x00);
  HMAC := fun _ key message =>
    take 4 (key ++ message ++ replicate 4 Byte.x00);
  hash_Hash := list byte;
  digest := fun transcript => transcript;
  aeadNonceLength := 12
|}.

(** A suite of the sample environment, with an AEAD key of 2 bytes. *)
Definition sample_suite : @cipherSuiteTLS13 sample_schedule_env :=
  @Build_cipherSuiteTLS13 sample_schedule_env 2 tt.

(* ===================================================================== *)
(** * Vocabulary of the statements                                        *)
(* ===================================================================== *)

(** Decoding what the encoder produced; a [nil] slice holds no byte. *)
Definition decode_encode (v : UTLSSessionData)
    : go (option UTLSSessionData * option error) :=
  encoded ← marshalUTLSSessionData (Some v);
  unmarshalUTLSSessionData (default [] encoded).

(** The session-ID length a payload of at least three bytes declares. *)
Definition declared_length (data : list byte) : Z :=
  match data with
  | _ :: b0 :: b1 :: _ => byte_to_Z b0 * 256 + byte_to_Z b1
  | _ => 0
  end.

(** The wire form of one field, as the format comment of
    [marshalSessionExtra] lays it out:
    [field_id(2) || field_version(1) || data_length(2) || data]. *)
Definition field_bytes (f : SessionExtraField) : list byte :=
  be16 (ID f) ++ [Version f] ++ be16 (len (Data f)) ++ Data f.

(** A field whose id and data length fit their 16-bit slots. *)
Definition field_fits (f : SessionExtraField) : Prop :=
  0 <= ID f < 65536 /\ len (Data f) < 65536.

(** The field the decoder knows: version 0x01 and id 0x7001. *)
Definition recognized (f : SessionExtraField) : bool :=
  bool_decide (Version f = SessionExtraVersion)
  && (ID f =? SessionExtraUTLSData).

(** The wire form of a run of fields. *)
Fixpoint fields_bytes (fs : list SessionExtraField) : list byte :=
  match fs with
  | [] => []
  | f :: fs => field_bytes f ++ fields_bytes fs
  end.

(** The wire form of a container announcing [count] fields, followed by
    the bytes [body]: [version(1) || field_count(2) || body]. *)
Definition container_bytes (version : byte) (count : Z) (body : list byte)
    : list byte :=
  version :: be16 count ++ body.

(** What stops the decoder at the bytes [tail] left for the next field:
    fewer than five bytes make the header incomplete; a header declaring
    more data than the bytes behind it makes the data incomplete.  The
    result is the end of the error message, [None] for a complete field. *)
Definition truncation (tail : list byte) : option string :=
  match tail with
  | _ :: _ :: _ :: l0 :: l1 :: rest =>
      if byte_to_Z l0 * 256 + byte_to_Z l1 >? len rest
      then Some " data incomplete"
      else None
  | _ => Some " header incomplete"
  end.

(** A slot of [Extra] that begins with the version byte of the codec. *)
Definition codec_owned (extraItem : list byte) : bool :=
  match extraItem with
  | b :: _ => bool_decide (b = SessionExtraVersion)
  | [] => false
  end.

(** The slots of the codec, and the foreign ones, each in their order. *)
Definition owned_slots (extra : list (list byte)) : list (list byte) :=
  filter (fun extraItem => codec_owned extraItem = true) extra.

Definition foreign_slots (extra : list (list byte)) : list (list byte) :=
  filter (fun extraItem => codec_owned extraItem = false) extra.

(** The session identifier of the scenario: the bytes 0x00 to 0x1F. *)
Definition ascending_32 : list byte :=
  map (fun i => uint8 (Z.of_nat i)) (seq 0 32).

(** A result of the container decoder that carries no data: an error, or
    (nil, nil). *)
Definition no_data (r : option UTLSSessionData * option error) : Prop :=
  match r with
  | (_, Some _) => True
  | (utlsData, None) => utlsData = None
  end.

(* ===================================================================== *)
(** * key_schedule.go: the curve of a curve ID and back                   *)
(* ===================================================================== *)

Section CurveIDs.
Context `{env : KeyPoolEnv}.

(** [curveIDForCurve(curve)]: Go's pair [(id, ok)].  The argument is an
    interface value: [None] is the nil interface, which none of the cases
    matches; [crypto/ecdh] has no other implementation than the four. *)
Definition curveIDForCurve (curve : option Curve) : CurveID * bool :=
  match curve with
  | Some ecdh_X25519 => (X25519, true)
  | Some ecdh_P256 => (CurveP256, true)
  | Some ecdh_P384 => (CurveP384, true)
  | Some ecdh_P521 => (CurveP521, true)
  | None => (0, false)
  end.

(** What the filling loop of [keyCache.init] leaves in [n] successive
    slots when the random source is at [r]: the key of each generation, nil
    where the generation reported an error; and the source afterwards. *)
Fixpoint generated (curve : Curve) (n : nat) (r : Reader)
    : list (option PrivateKey) * Reader :=
  match n with
  | O => ([], r)
  | S n =>
      let '(key, err, r) := GenerateKey curve r in
      let '(ks, r) := generated curve n r in
      (match err with Some _ => None | None => key end :: ks, r)
  end.

(** A pool that is filled and has no nil slot. *)
Definition pool_full (kc : keyCache) : Prop :=
  initialized kc = true /\ keys kc <> []
  /\ Forall (fun key => key <> None) (keys kc).

End CurveIDs.

(** An environment whose key generation never fails: the key is the
    reading of the source. *)
Definition reliable_pool_env : KeyPoolEnv := {|
  X25519 := 29;
  CurveP256 := 23;
  CurveP384 := 24;
  CurveP521 := 25;
  PrivateKey := nat;
  Reader := nat;
  GenerateKey := fun _ r => (Some r, None, S r);
  MathRand := Z;
  mathrand_draw := fun m => (m, m + 1)
|}.

(** The process state of that environment before any pool is filled. *)
Definition reliable_globals (seed : Z) : @globals reliable_pool_env :=
  let empty := @Build_keyCache reliable_pool_env [] false in
  @Build_globals reliable_pool_env empty empty empty empty 0%nat seed.

(** The errors of the payload decoder. *)
Definition payload_error (e : error) : Prop :=
  e = errors_New "invalid UTLS session data: too short"
  \/ e = errors_New "invalid UTLS session data: session ID incomplete".

(** The errors the container decoder is seen to return: its own "too
    short", the two errors naming a field index, and the errors of the
    payload decoder. *)
Definition container_error (e : error) : Prop :=
  e = errors_New "invalid extra data: too short"
  \/ (exists i, 0 <= i < 65536
                /\ e = fmt_Errorf "invalid extra data: field " i
                         " header incomplete")
  \/ (exists i, 0 <= i < 65536
                /\ e = fmt_Errorf "invalid extra data: field " i
                         " data incomplete")
  \/ payload_error e.

(** Go's convention for a pair [(value, err)] with the errors [errors]:
    an error comes without a value and is one of [errors]. *)
Definition error_or_value {A} (errors : error -> Prop)
    (r : option A * option error) : Prop :=
  match r with
  | (value, Some e) => value = None /\ errors e
  | (_, None) => True
  end.

(** Decoding the container the encoder produced; a [nil] slice holds no
    byte. *)
Definition unmarshal_marshal (v : UTLSSessionData)
    : go (option UTLSSessionData * option error) :=
  extraData ← marshalSessionExtra (Some v);
  unmarshalSessionExtra (default [] extraData).

(** Reading the extension back from the state a set leaves. *)
Definition set_then_get (s : SessionState) (data : option UTLSSessionData)
    : go (option UTLSSessionData) :=
  s ← SetSessionExtraFields s data;
  GetSessionExtraFields s.

(* ===================================================================== *)
(** * Properties of the run-time model                                    *)
(* ===================================================================== *)

(** Turns every integer comparison of the goal into a case split on its
    specification and lets [lia] discard the impossible cases. *)
Ltac Zcases :=
  repeat match goal with
    | |- context [?a <=? ?b] => destruct (Z.leb_spec a b); try lia
    | |- context [?a <? ?b] => destruct (Z.ltb_spec a b); try lia
    | |- context [?a >? ?b] =>
        rewrite (Z.gtb_ltb a b); destruct (Z.ltb_spec b a); try lia
    | |- context [?a >=? ?b] =>
        rewrite (Z.geb_leb a b); destruct (Z.leb_spec b a); try lia
    | |- context [?a =? ?b] => destruct (Z.eqb_spec a b); try lia
    end.

(** One step of the monad: feeds a returned value to the continuation. *)
Ltac go_step := cbn [mbind go_bind mret go_ret].

Ltac len_simpl :=
  unfold len in *;
  rewrite ?length_app, ?length_cons, ?length_take, ?length_drop,
    ?length_replicate, ?length_insert, ?length_nil in *;
  cbn [length] in *.

Lemma len_nonneg {A} (s : list A) : 0 <= len s.
Proof. unfold len. lia. Qed.

Lemma len_cons {A} (a : A) (s : list A) : len (a :: s) = 1 + len s.
Proof. len_simpl. lia. Qed.

Lemma len_app {A} (s t : list A) : len (s ++ t) = len s + len t.
Proof. len_simpl. lia. Qed.

Lemma len_zero_nil {A} (s : list A) : len s = 0 -> s = [].
Proof.
  destruct s; [done|]. rewrite len_cons. pose proof (len_nonneg s). lia.
Qed.

Lemma byte_to_Z_range (b : byte) : 0 <= byte_to_Z b < 256.
Proof.
  unfold byte_to_Z. pose proof (Byte.to_N_bounded b). lia.
Qed.

Lemma uint8_byte_to_Z (b : byte) : uint8 (byte_to_Z b) = b.
Proof.
  unfold uint8. pose proof (byte_to_Z_range b) as Hb.
  rewrite Z.mod_small by lia. unfold byte_to_Z.
  rewrite N2Z.id, Byte.of_to_N. reflexivity.
Qed.

Lemma byte_to_Z_uint8 (x : Z) : byte_to_Z (uint8 x) = x mod 256.
Proof.
  unfold uint8, byte_to_Z.
  pose proof (Z.mod_pos_bound x 256 ltac:(lia)) as Hx.
  destruct (Byte.of_N (Z.to_N (x mod 256))) as [b|] eqn:E.
  - apply Byte.to_of_N in E. simpl. rewrite E. lia.
  - apply Byte.of_N_None_iff in E. lia.
Qed.

Lemma index_cons_0 {A} (a : A) (s : list A) : index (a :: s) 0 = Ret a.
Proof.
  unfold index. rewrite len_cons. pose proof (len_nonneg s).
  Zcases. reflexivity.
Qed.

Lemma index_cons_S {A} (a : A) (s : list A) (i : Z) :
  0 < i -> index (a :: s) i = index s (i - 1).
Proof.
  intros Hi. unfold index. rewrite len_cons.
  replace (Z.to_nat i) with (S (Z.to_nat (i - 1))) by lia.
  Zcases; reflexivity.
Qed.

Lemma index_Ret {A} (s : list A) (i : Z) :
  0 <= i < len s -> exists x, index s i = Ret x /\ s !! Z.to_nat i = Some x.
Proof.
  intros Hi. unfold index.
  destruct (lookup_lt_is_Some_2 s (Z.to_nat i)) as [x Hx].
  { unfold len in Hi. lia. }
  exists x. rewrite Hx. Zcases. auto.
Qed.

Lemma slice_from_Ret {A} (s : list A) (lo : Z) :
  0 <= lo <= len s -> slice_from s lo = Ret (drop (Z.to_nat lo) s).
Proof. intros H. unfold slice_from. Zcases. reflexivity. Qed.

Lemma slice_Ret {A} (s : list A) (lo hi : Z) :
  0 <= lo <= hi -> hi <= len s ->
  slice s lo hi = Ret (take (Z.to_nat (hi - lo)) (drop (Z.to_nat lo) s)).
Proof. intros H1 H2. unfold slice. Zcases. reflexivity. Qed.

Lemma set_index_Ret {A} (s : list A) (i : Z) (x : A) :
  0 <= i < len s -> set_index s i x = Ret (<[Z.to_nat i := x]> s).
Proof. intros H. unfold set_index. Zcases. reflexivity. Qed.

Lemma make_Ret (n : Z) :
  0 <= n -> make n = Ret (replicate (Z.to_nat n) Byte.x00).
Proof. intros H. unfold make. Zcases. reflexivity. Qed.

Lemma lor_shiftl_8 (lo hi : Z) :
  0 <= lo < 256 -> Z.lor lo (Z.shiftl hi 8) = hi * 256 + lo.
Proof.
  intros Hlo. rewrite <- Z.add_nocarry_lor.
  - rewrite Z.shiftl_mul_pow2 by lia. change (2 ^ 8) with 256. lia.
  - apply Z.bits_inj'. intros n Hn. rewrite Z.land_spec, Z.bits_0.
    destruct (Z.lt_ge_cases n 8).
    + rewrite Z.shiftl_spec_low by lia. apply andb_false_r.
    + rewrite <- (Z.mod_small lo (2 ^ 8)) by (change (2 ^ 8) with 256; lia).
      rewrite Z.mod_pow2_bits_high by lia. reflexivity.
Qed.

Lemma BigEndian_Uint16_cons (b0 b1 : byte) (s : list byte) :
  BigEndian_Uint16 (b0 :: b1 :: s) = Ret (byte_to_Z b0 * 256 + byte_to_Z b1).
Proof.
  unfold BigEndian_Uint16.
  rewrite (index_cons_S _ _ 1), index_cons_0, index_cons_0 by lia. simpl.
  f_equal. apply lor_shiftl_8. apply byte_to_Z_range.
Qed.

Lemma BigEndian_PutUint16_cons (b0 b1 : byte) (s : list byte) (v : Z) :
  BigEndian_PutUint16 (b0 :: b1 :: s) v = Ret (be16 v ++ s).
Proof.
  unfold BigEndian_PutUint16.
  rewrite (index_cons_S _ _ 1), index_cons_0 by lia. go_step.
  rewrite set_index_Ret by (len_simpl; lia).
  go_step.
  rewrite set_index_Ret by (len_simpl; lia).
  reflexivity.
Qed.

Lemma be16_value (v : Z) :
  0 <= v < 65536 ->
  byte_to_Z (uint8 (Z.shiftr v 8)) * 256 + byte_to_Z (uint8 v) = v.
Proof.
  intros Hv. rewrite !byte_to_Z_uint8, Z.shiftr_div_pow2 by lia.
  change (2 ^ 8) with 256.
  rewrite (Z.mod_small (v / 256)).
  - pose proof (Z.div_mod v 256). lia.
  - split; [apply Z.div_pos; lia | apply Z.div_lt_upper_bound; lia].
Qed.

Lemma copy_exact {A} (dst src : list A) :
  length dst = length src -> copy dst src = src.
Proof.
  intros H. unfold copy.
  rewrite take_ge, drop_ge by lia. apply app_nil_r.
Qed.

Lemma set_index_cons_0 {A} (a x : A) (s : list A) :
  set_index (a :: s) 0 x = Ret (x :: s).
Proof. rewrite set_index_Ret by (len_simpl; lia). reflexivity. Qed.

Lemma slice_from_0 {A} (s : list A) : slice_from s 0 = Ret s.
Proof. rewrite slice_from_Ret by (pose proof (len_nonneg s); lia). done. Qed.

Lemma slice_from_cons {A} (a : A) (s : list A) (lo : Z) :
  0 < lo -> slice_from (a :: s) lo = slice_from s (lo - 1).
Proof.
  intros Hlo. unfold slice_from. rewrite len_cons.
  replace (Z.to_nat lo) with (S (Z.to_nat (lo - 1))) by lia.
  Zcases; reflexivity.
Qed.

Lemma through_tail_0 {A} (s t : list A) write :
  write s = Ret t -> through_tail s 0 write = Ret t.
Proof.
  intros Hw. unfold through_tail. rewrite slice_from_0. go_step.
  rewrite Hw. reflexivity.
Qed.

Lemma through_tail_cons {A} (a : A) (s t : list A) (lo : Z) write :
  0 < lo ->
  through_tail s (lo - 1) write = Ret t ->
  through_tail (a :: s) lo write = Ret (a :: t).
Proof.
  unfold through_tail. intros Hlo. rewrite slice_from_cons by done.
  destruct (slice_from s (lo - 1)) as [tl|]; [|done]. go_step.
  destruct (write tl) as [tl'|]; [|done]. go_step.
  intros [= <-]. replace (Z.to_nat lo) with (S (Z.to_nat (lo - 1))) by lia.
  reflexivity.
Qed.

(* ===================================================================== *)
(** * The payload codec                                                   *)
(* ===================================================================== *)

(** What the payload encoder produces for a value that is not logically
    empty: the type, the length on two bytes, the identifier. *)
Lemma marshalUTLSSessionData_bytes (d : UTLSSessionData) :
  nothing_to_encode (Some d) = false ->
  marshalUTLSSessionData (Some d)
  = Ret (Some (ResumeType d :: be16 (uint16 (len (SessionID d)))
               ++ SessionID d)).
Proof.
  intros Hne. unfold marshalUTLSSessionData. rewrite Hne. cbv zeta.
  pose proof (len_nonneg (SessionID d)) as Hlen.
  rewrite make_Ret by lia. go_step.
  replace (Z.to_nat (1 + 2 + len (SessionID d)))
    with (3 + length (SessionID d))%nat by (unfold len; lia).
  cbn [replicate Nat.add].
  rewrite set_index_cons_0, uint8_byte_to_Z. go_step.
  change (0 + 1) with 1. change (1 + 2) with 3.
  erewrite through_tail_cons;
    [| lia | apply through_tail_0, BigEndian_PutUint16_cons].
  go_step. cbn [be16 app].
  destruct (Z.ltb_spec 0 (len (SessionID d))) as [Hpos|Hzero].
  - erewrite through_tail_cons; [| lia |].
    2: { apply through_tail_cons; [lia|]. apply through_tail_cons; [lia|].
         change (3 - 1 - 1 - 1) with 0. apply through_tail_0. reflexivity. }
    go_step. rewrite copy_exact by apply length_replicate. reflexivity.
  - go_step. rewrite (len_zero_nil (SessionID d)) by lia. reflexivity.
Qed.

Lemma marshalUTLSSessionData_nil (data : option UTLSSessionData) :
  nothing_to_encode data = true -> marshalUTLSSessionData data = Ret None.
Proof.
  intros He. destruct data as [d|]; [|reflexivity].
  unfold marshalUTLSSessionData. rewrite He. reflexivity.
Qed.

Lemma unmarshalUTLSSessionData_short (data : list byte) :
  len data < 3 ->
  unmarshalUTLSSessionData data
  = Ret (None, Some (errors_New "invalid UTLS session data: too short")).
Proof. intros H. unfold unmarshalUTLSSessionData. Zcases. reflexivity. Qed.

Lemma unmarshalUTLSSessionData_cons (rt b0 b1 : byte) (rest : list byte) :
  unmarshalUTLSSessionData (rt :: b0 :: b1 :: rest)
  = let n := byte_to_Z b0 * 256 + byte_to_Z b1 in
    if n >? len rest
    then Ret (None, Some (errors_New
                "invalid UTLS session data: session ID incomplete"))
    else Ret (Some {| ResumeType := rt;
                      SessionID := take (Z.to_nat n) rest |}, None).
Proof.
  pose proof (len_nonneg rest) as Hrest.
  pose proof (byte_to_Z_range b0). pose proof (byte_to_Z_range b1).
  unfold unmarshalUTLSSessionData. rewrite !len_cons. cbv zeta.
  destruct (Z.ltb_spec (1 + (1 + (1 + len rest))) 3); [lia|].
  rewrite index_cons_0. go_step.
  change (0 + 1) with 1.
  rewrite slice_from_cons, slice_from_0 by lia. go_step.
  rewrite BigEndian_Uint16_cons. go_step.
  set (n := byte_to_Z b0 * 256 + byte_to_Z b1) in *.
  rewrite !Z.gtb_ltb.
  destruct (Z.ltb_spec (len rest) n),
    (Z.ltb_spec (1 + (1 + (1 + len rest))) (1 + 2 + n));
    try lia; [reflexivity|].
  destruct (Z.ltb_spec 0 n).
  - rewrite make_Ret by lia. go_step.
    rewrite slice_Ret by (rewrite ?len_cons; lia). go_step.
    replace (Z.to_nat (1 + 2)) with 3%nat by lia. cbn [drop].
    change (drop 0 rest) with rest.
    replace (1 + 2 + n - (1 + 2)) with n by lia.
    rewrite copy_exact; [reflexivity|].
    rewrite length_replicate, length_take. unfold len in *. lia.
  - go_step. replace n with 0 by lia. reflexivity.
Qed.

(** C1, as amended. Round trip of the payload codec: for every value that
    is not logically empty (its type is not [ResumeUnknown] or its session
    identifier is not empty) and whose session identifier has at most 65535
    bytes, the encoder produces bytes, and decoding them gives back the same
    type and the same identifier bytes, without error. *)
Theorem payload_round_trip (v : UTLSSessionData) :
  nothing_to_encode (Some v) = false ->
  len (SessionID v) <= 65535 ->
  exists encoded,
    marshalUTLSSessionData (Some v) = Ret (Some encoded)
    /\ unmarshalUTLSSessionData encoded = Ret (Some v, None)
    /\ decode_encode v = Ret (Some v, None).
Proof.
  intros Hne Hlen. pose proof (len_nonneg (SessionID v)) as Hpos.
  assert (unmarshalUTLSSessionData
            (ResumeType v :: be16 (uint16 (len (SessionID v)))
             ++ SessionID v) = Ret (Some v, None)) as Hdec.
  { cbn [be16 app]. rewrite unmarshalUTLSSessionData_cons. cbv zeta.
    unfold uint16. rewrite Z.mod_small by lia.
    rewrite be16_value by lia.
    rewrite Z.gtb_ltb, Z.ltb_irrefl.
    rewrite take_ge by (unfold len; lia). destruct v; reflexivity. }
  eexists. split; [apply marshalUTLSSessionData_bytes, Hne|].
  split; [exact Hdec|].
  unfold decode_encode. rewrite marshalUTLSSessionData_bytes by done.
  go_step. exact Hdec.
Qed.

Lemma payload_round_trip_witness :
  exists encoded,
    marshalUTLSSessionData
      (Some {| ResumeType := ResumeSessionTicket;
               SessionID := [Byte.x0a; Byte.x0b] |}) = Ret (Some encoded)
    /\ unmarshalUTLSSessionData encoded
       = Ret (Some {| ResumeType := ResumeSessionTicket;
                      SessionID := [Byte.x0a; Byte.x0b] |}, None)
    /\ decode_encode {| ResumeType := ResumeSessionTicket;
                        SessionID := [Byte.x0a; Byte.x0b] |}
       = Ret (Some {| ResumeType := ResumeSessionTicket;
                      SessionID := [Byte.x0a; Byte.x0b] |}, None).
Proof.
  apply (payload_round_trip
           {| ResumeType := ResumeSessionTicket;
              SessionID := [Byte.x0a; Byte.x0b] |}).
  - reflexivity.
  - vm_compute. discriminate.
Defined.

(** The logically empty value is in the range the round trip is claimed
    for, yet the encoder gives [nil] for it and the decoder rejects the
    empty buffer as too short. *)
Lemma payload_round_trip_fails_on_empty :
  let v := {| ResumeType := ResumeUnknown; SessionID := [] |} in
  len (SessionID v) <= 65535
  /\ marshalUTLSSessionData (Some v) = Ret None
  /\ decode_encode v
     = Ret (None, Some (errors_New "invalid UTLS session data: too short"))
  /\ decode_encode v <> Ret (Some v, None).
Proof.
  cbv zeta. split; [vm_compute; discriminate|].
  split; [reflexivity|]. split; [reflexivity|]. discriminate.
Qed.

(* ===================================================================== *)
(** * The container codec                                                 *)
(* ===================================================================== *)

Lemma index_app_r {A} (pre s : list A) (k : Z) :
  0 <= k -> index (pre ++ s) (len pre + k) = index s k.
Proof.
  intros Hk. unfold index. rewrite len_app.
  pose proof (len_nonneg pre) as Hpre.
  replace (Z.to_nat (len pre + k)) with (length pre + Z.to_nat k)%nat
    by (unfold len; lia).
  rewrite lookup_app_r, Nat.add_comm, Nat.add_sub by lia.
  Zcases; reflexivity.
Qed.

Lemma slice_from_app_r {A} (pre s : list A) (k : Z) :
  0 <= k -> slice_from (pre ++ s) (len pre + k) = slice_from s k.
Proof.
  intros Hk. unfold slice_from. rewrite len_app.
  pose proof (len_nonneg pre) as Hpre.
  replace (Z.to_nat (len pre + k)) with (length pre + Z.to_nat k)%nat
    by (unfold len; lia).
  rewrite drop_app_add'  by done.
  Zcases; reflexivity.
Qed.

Lemma slice_app_r {A} (pre s : list A) (lo hi : Z) :
  0 <= lo ->
  slice (pre ++ s) (len pre + lo) (len pre + hi) = slice s lo hi.
Proof.
  intros Hlo. unfold slice. rewrite len_app.
  pose proof (len_nonneg pre) as Hpre.
  replace (Z.to_nat (len pre + lo)) with (length pre + Z.to_nat lo)%nat
    by (unfold len; lia).
  rewrite drop_app_add' by done.
  replace (len pre + hi - (len pre + lo)) with (hi - lo) by lia.
  Zcases; reflexivity.
Qed.

(** The five header bytes of a field, then its data and what follows. *)
Lemma field_bytes_app (f : SessionExtraField) (rest : list byte) :
  field_bytes f ++ rest
  = uint8 (Z.shiftr (ID f) 8) :: uint8 (ID f) :: Version f
    :: uint8 (Z.shiftr (len (Data f)) 8) :: uint8 (len (Data f))
    :: Data f ++ rest.
Proof. unfold field_bytes, be16. rewrite <- !app_assoc. reflexivity. Qed.

Lemma len_field_bytes (f : SessionExtraField) :
  len (field_bytes f) = 5 + len (Data f).
Proof. unfold field_bytes, be16. len_simpl. lia. Qed.

(** One turn of the loop at a complete field header. *)
Lemma readFields_header (pre rest : list byte) (id0 id1 ver l0 l1 : byte)
    (remaining : nat) (i : Z) :
  let buf := pre ++ id0 :: id1 :: ver :: l0 :: l1 :: rest in
  let dataLength := byte_to_Z l0 * 256 + byte_to_Z l1 in
  readFields buf (S remaining) i (len pre)
  = if dataLength >? len rest
    then Ret (None, Some (fmt_Errorf "invalid extra data: field " i
                            " data incomplete"))
    else if bool_decide (ver = SessionExtraVersion)
            && (byte_to_Z id0 * 256 + byte_to_Z id1 =? SessionExtraUTLSData)
    then unmarshalUTLSSessionData (take (Z.to_nat dataLength) rest)
    else readFields buf remaining (uint16 (i + 1))
           (len pre + 5 + dataLength).
Proof.
  intros buf dataLength.
  pose proof (len_nonneg pre) as Hpre. pose proof (len_nonneg rest) as Hrest.
  pose proof (byte_to_Z_range l0). pose proof (byte_to_Z_range l1).
  cbn [readFields]. subst buf. rewrite !len_app, !len_cons.
  rewrite Z.gtb_ltb.
  destruct (Z.ltb_spec (len pre + (1 + (1 + (1 + (1 + (1 + len rest))))))
              (len pre + 5)); [lia|].
  rewrite <- (Z.add_0_r (len pre)) at 1.
  rewrite slice_from_app_r, slice_from_0 by lia. go_step.
  rewrite BigEndian_Uint16_cons. go_step.
  rewrite index_app_r by lia.
  rewrite !index_cons_S by lia. change (2 - 1 - 1) with 0.
  rewrite index_cons_0. go_step.
  replace (len pre + 2 + 1) with (len pre + 3) by lia.
  rewrite slice_from_app_r by lia.
  rewrite !slice_from_cons by lia. change (3 - 1 - 1 - 1) with 0.
  rewrite slice_from_0. go_step.
  rewrite BigEndian_Uint16_cons. go_step. fold dataLength.
  rewrite !Z.gtb_ltb.
  destruct (Z.ltb_spec (len rest) dataLength),
    (Z.ltb_spec (len pre + (1 + (1 + (1 + (1 + (1 + len rest))))))
       (len pre + 3 + 2 + dataLength)); try lia; [reflexivity|].
  replace (len pre + 3 + 2) with (len pre + 5) by lia.
  rewrite <- Z.add_assoc, slice_app_r by lia.
  rewrite slice_Ret by (rewrite ?len_cons; lia).
  go_step. replace (Z.to_nat 5) with 5%nat by lia. cbn [drop].
  change (drop 0 rest) with rest.
  replace (5 + dataLength - 5) with dataLength by lia.
  rewrite Z.add_assoc.
  destruct (bool_decide (ver = SessionExtraVersion)), (_ =? _); reflexivity.
Qed.

(** One turn of the loop where fewer than five bytes are left. *)
Lemma readFields_header_incomplete (pre tail : list byte)
    (remaining : nat) (i : Z) :
  len tail < 5 ->
  readFields (pre ++ tail) (S remaining) i (len pre)
  = Ret (None, Some (fmt_Errorf "invalid extra data: field " i
                       " header incomplete")).
Proof.
  intros Ht. cbn [readFields]. rewrite len_app, Z.gtb_ltb.
  destruct (Z.ltb_spec (len pre + len tail) (len pre + 5)); [reflexivity|lia].
Qed.

(** One turn of the loop on a complete field: the known field ends the
    loop with the decoding of its payload, any other field is stepped
    over. *)
Lemma readFields_field (pre rest : list byte) (f : SessionExtraField)
    (remaining : nat) (i : Z) :
  field_fits f ->
  readFields (pre ++ field_bytes f ++ rest) (S remaining) i (len pre)
  = if recognized f
    then unmarshalUTLSSessionData (Data f)
    else readFields (pre ++ field_bytes f ++ rest) remaining
           (uint16 (i + 1)) (len pre + len (field_bytes f)).
Proof.
  intros [Hid Hdata]. pose proof (len_nonneg (Data f)) as Hd.
  rewrite len_field_bytes, field_bytes_app, readFields_header.
  cbv zeta. rewrite !be16_value by lia.
  rewrite len_app, Z.gtb_ltb. pose proof (len_nonneg rest).
  destruct (Z.ltb_spec (len (Data f) + len rest) (len (Data f))); [lia|].
  replace (Z.to_nat (len (Data f))) with (length (Data f))
    by (unfold len; lia).
  rewrite take_app_length, Z.add_assoc. reflexivity.
Qed.

(** Stepping over a run of complete fields none of which is the known
    one. *)
Lemma readFields_skip (fs : list SessionExtraField) :
  forall (pre rest : list byte) (remaining : nat) (i : Z),
    Forall field_fits fs ->
    Forall (fun f => recognized f = false) fs ->
    0 <= i -> i + len fs < 65536 ->
    readFields (pre ++ fields_bytes fs ++ rest) (length fs + remaining) i
      (len pre)
    = readFields (pre ++ fields_bytes fs ++ rest) remaining (i + len fs)
        (len pre + len (fields_bytes fs)).
Proof.
  induction fs as [|f fs IH]; intros pre rest remaining i Hfit Hun Hi Hlt.
  - cbn. rewrite !Z.add_0_r. reflexivity.
  - inversion Hfit as [|? ? Hf Hfs]; subst.
    inversion Hun as [|? ? Hu Hus]; subst.
    rewrite len_cons in Hlt. pose proof (len_nonneg fs).
    cbn [fields_bytes length Nat.add]. rewrite <- app_assoc.
    rewrite readFields_field, Hu by done.
    unfold uint16. rewrite Z.mod_small by lia.
    rewrite <- len_app, (app_assoc pre).
    rewrite IH by (done || lia).
    rewrite !len_app, len_cons. f_equal; lia.
Qed.

Lemma unmarshalSessionExtra_other_version (b : byte) (rest : list byte) :
  b <> SessionExtraVersion -> 3 <= len (b :: rest) ->
  unmarshalSessionExtra (b :: rest) = Ret (None, None).
Proof.
  intros Hb Hlen. unfold unmarshalSessionExtra. cbv zeta.
  destruct (Z.eqb_spec (len (b :: rest)) 0); [lia|].
  destruct (Z.ltb_spec (len (b :: rest)) 3); [lia|].
  rewrite index_cons_0. go_step.
  rewrite bool_decide_eq_false_2 by done. reflexivity.
Qed.

(** Past the version byte and the count, the decoder walks the fields from
    offset 3. *)
Lemma unmarshalSessionExtra_version (c0 c1 : byte) (body : list byte) :
  unmarshalSessionExtra (SessionExtraVersion :: c0 :: c1 :: body)
  = readFields (SessionExtraVersion :: c0 :: c1 :: body)
      (Z.to_nat (byte_to_Z c0 * 256 + byte_to_Z c1)) 0 3.
Proof.
  pose proof (len_nonneg body).
  unfold unmarshalSessionExtra. cbv zeta. rewrite !len_cons.
  destruct (Z.eqb_spec (1 + (1 + (1 + len body))) 0); [lia|].
  destruct (Z.ltb_spec (1 + (1 + (1 + len body))) 3); [lia|].
  rewrite index_cons_0. go_step.
  rewrite bool_decide_eq_true_2 by done. cbn [negb].
  rewrite Z.gtb_ltb.
  destruct (Z.ltb_spec (1 + (1 + (1 + len body))) (0 + 1 + 2)); [lia|].
  change (0 + 1) with 1.
  rewrite slice_from_cons, slice_from_0 by lia. go_step.
  rewrite BigEndian_Uint16_cons. go_step. reflexivity.
Qed.

Lemma unmarshalSessionExtra_container (count : Z) (body : list byte) :
  0 <= count < 65536 ->
  unmarshalSessionExtra (container_bytes SessionExtraVersion count body)
  = readFields (container_bytes SessionExtraVersion count body)
      (Z.to_nat count) 0 3.
Proof.
  intros Hc. unfold container_bytes. cbn [be16 app].
  rewrite unmarshalSessionExtra_version, be16_value by done. reflexivity.
Qed.

(** C2, as amended. Forward compatibility of the container decoder: for
    every input buffer of at least three bytes whose first byte differs
    from the codec version 0x01, [unmarshalSessionExtra] returns (nil, nil),
    no data and no error; and so it does for every well-formed container of
    version 0x01 all of whose fields have an unrecognized id or an
    unrecognized field version. *)
Theorem unknown_formats_are_no_data (extraData : list byte) :
  (3 <= len extraData
   /\ exists b rest, extraData = b :: rest /\ b <> SessionExtraVersion)
  \/ (exists fs,
        extraData = container_bytes SessionExtraVersion (len fs)
                      (fields_bytes fs)
        /\ len fs < 65536
        /\ Forall field_fits fs
        /\ Forall (fun f => recognized f = false) fs) ->
  unmarshalSessionExtra extraData = Ret (None, None).
Proof.
  intros [[Hlen (b & rest & -> & Hb)] | (fs & -> & Hlen & Hfit & Hun)].
  - apply unmarshalSessionExtra_other_version; done.
  - pose proof (len_nonneg fs).
    rewrite unmarshalSessionExtra_container by lia.
    unfold container_bytes.
    change (SessionExtraVersion :: be16 (len fs) ++ fields_bytes fs)
      with ((SessionExtraVersion :: be16 (len fs)) ++ fields_bytes fs).
    rewrite <- (app_nil_r (fields_bytes fs)).
    change 3 with (len (SessionExtraVersion :: be16 (len fs))).
    replace (Z.to_nat (len fs)) with (length fs + 0)%nat by (unfold len; lia).
    rewrite readFields_skip by (done || lia). reflexivity.
Qed.

Lemma unknown_formats_are_no_data_witness :
  unmarshalSessionExtra [Byte.x02; Byte.x00; Byte.x00] = Ret (None, None)
  /\ unmarshalSessionExtra
       (container_bytes SessionExtraVersion 2
          (fields_bytes
             [ {| ID := 0x7002; Version := Byte.x01; Data := [Byte.xff] |};
               {| ID := 0x7001; Version := Byte.x02; Data := [] |} ]))
     = Ret (None, None).
Proof.
  split.
  - apply (unknown_formats_are_no_data [Byte.x02; Byte.x00; Byte.x00]).
    left. split; [vm_compute; discriminate|].
    exists Byte.x02, [Byte.x00; Byte.x00]. split; [reflexivity|discriminate].
  - apply (unknown_formats_are_no_data
             (container_bytes SessionExtraVersion 2
                (fields_bytes
                   [ {| ID := 0x7002; Version := Byte.x01;
                        Data := [Byte.xff] |};
                     {| ID := 0x7001; Version := Byte.x02; Data := [] |} ]))).
    right.
    exists [ {| ID := 0x7002; Version := Byte.x01; Data := [Byte.xff] |};
             {| ID := 0x7001; Version := Byte.x02; Data := [] |} ].
    split; [reflexivity|]. split; [reflexivity|].
    split; repeat constructor; cbn; lia.
Defined.

(** A buffer of one byte is not empty and its first byte is not 0x01, yet
    the decoder reports an error for it: the length test comes before the
    version test. *)
Lemma short_unknown_version_is_an_error :
  [Byte.x02] <> []
  /\ hd_error [Byte.x02] <> Some SessionExtraVersion
  /\ unmarshalSessionExtra [Byte.x02]
     = Ret (None, Some (errors_New "invalid extra data: too short"))
  /\ unmarshalSessionExtra [Byte.x02] <> Ret (None, None).
Proof. repeat split; (discriminate || reflexivity). Qed.

(** The payload decoder always returns. *)
Lemma unmarshalUTLSSessionData_total (data : list byte) :
  exists r, unmarshalUTLSSessionData data = Ret r.
Proof.
  destruct (Z.lt_ge_cases (len data) 3) as [Hs|Hl].
  - eexists. apply unmarshalUTLSSessionData_short, Hs.
  - destruct data as [|rt [|b0 [|b1 rest]]]; try (vm_compute in Hl; done).
    rewrite unmarshalUTLSSessionData_cons. cbv zeta.
    destruct (_ >? _); eexists; reflexivity.
Qed.

(** The loop over the fields always returns, from any offset within the
    buffer. *)
Lemma readFields_total_split (remaining : nat) :
  forall (pre suf : list byte) (i : Z),
    exists r, readFields (pre ++ suf) remaining i (len pre) = Ret r.
Proof.
  induction remaining as [|remaining IH]; intros pre suf i.
  - eexists. reflexivity.
  - destruct (Z.lt_ge_cases (len suf) 5) as [Hshort|Hlong].
    { eexists. apply readFields_header_incomplete, Hshort. }
    destruct suf as [|id0 [|id1 [|ver [|l0 [|l1 rest]]]]];
      try (vm_compute in Hlong; done).
    rewrite readFields_header. cbv zeta.
    pose proof (byte_to_Z_range l0). pose proof (byte_to_Z_range l1).
    pose proof (len_nonneg rest).
    set (n := byte_to_Z l0 * 256 + byte_to_Z l1) in *.
    destruct (Z.gtb_spec n (len rest)).
    { eexists. reflexivity. }
    destruct (_ && _).
    { apply unmarshalUTLSSessionData_total. }
    assert (pre ++ id0 :: id1 :: ver :: l0 :: l1 :: rest
            = (pre ++ id0 :: id1 :: ver :: l0 :: l1 :: take (Z.to_nat n) rest)
              ++ drop (Z.to_nat n) rest) as ->.
    { rewrite <- app_assoc. cbn [app]. rewrite take_drop. reflexivity. }
    replace (len pre + 5 + n)
      with (len (pre ++ id0 :: id1 :: ver :: l0 :: l1
                     :: take (Z.to_nat n) rest))
      by (len_simpl; lia).
    apply IH.
Qed.

Lemma readFields_total (remaining : nat) (extraData : list byte)
    (i offset : Z) :
  0 <= offset <= len extraData ->
  exists r, readFields extraData remaining i offset = Ret r.
Proof.
  intros Hoff.
  pose proof (readFields_total_split remaining
                (take (Z.to_nat offset) extraData)
                (drop (Z.to_nat offset) extraData) i) as Hsplit.
  rewrite take_drop in Hsplit.
  replace (len (take (Z.to_nat offset) extraData)) with offset in Hsplit
    by (len_simpl; lia).
  exact Hsplit.
Qed.

(** The container decoder always returns: no input makes it panic on an
    index or a slice out of range. *)
Lemma unmarshalSessionExtra_total (extraData : list byte) :
  exists r, unmarshalSessionExtra extraData = Ret r.
Proof.
  destruct extraData as [|b [|c0 [|c1 body]]];
    try (eexists; reflexivity).
  destruct (decide (b = SessionExtraVersion)) as [->|Hb].
  - rewrite unmarshalSessionExtra_version.
    apply readFields_total. rewrite !len_cons. pose proof (len_nonneg body).
    lia.
  - eexists. apply unmarshalSessionExtra_other_version; [done|].
    rewrite !len_cons. pose proof (len_nonneg body). lia.
Qed.

Lemma string_length_app (a s : string) :
  String.length (a +:+ s) = (String.length a + String.length s)%nat.
Proof.
  induction a as [|c a IH]; simpl; [reflexivity | rewrite IH; reflexivity].
Qed.

Lemma string_app_inv_tail (a b s : string) : a +:+ s = b +:+ s -> a = b.
Proof.
  intros H.
  assert (String.length a = String.length b) as Hlen.
  { apply (f_equal String.length) in H. rewrite !string_length_app in H. lia. }
  revert b H Hlen. induction a as [|c a IH]; intros [|c' b] H Hlen;
    cbn in *; try discriminate; [reflexivity|].
  injection H as -> H. f_equal. apply IH; [exact H | lia].
Qed.

(** The decimal rendering tells two indices apart. *)
Lemma fmt_d_inj (i j : Z) : 0 <= i -> 0 <= j -> fmt_d i = fmt_d j -> i = j.
Proof.
  intros Hi Hj H. unfold fmt_d in H.
  assert (forall n, NilZero.uint_of_string
                      (NilZero.string_of_uint (N.to_uint n))
                    = Some (N.to_uint n)) as Hback.
  { intros n. apply NilZero.usu. destruct n as [|p]; [discriminate|].
    apply DecimalPos.Unsigned.to_uint_nonnil. }
  apply (f_equal NilZero.uint_of_string) in H. rewrite !Hback in H.
  injection H as H. apply DecimalN.Unsigned.to_uint_inj in H. lia.
Qed.

(** An error message of [fmt.Errorf] names one index only. *)
Lemma fmt_Errorf_index_inj (before after : string) (i j : Z) :
  0 <= i -> 0 <= j ->
  fmt_Errorf before i after = fmt_Errorf before j after -> i = j.
Proof.
  unfold fmt_Errorf. intros Hi Hj H.
  apply (inj (String.app before)) in H.
  apply string_app_inv_tail in H. apply fmt_d_inj; done.
Qed.

(** The loop at a run of complete, unrecognized fields followed by a
    truncated one. *)
Lemma readFields_truncated (fs : list SessionExtraField)
    (pre tail : list byte) (remaining : nat) (i : Z) (what : string) :
  Forall field_fits fs ->
  Forall (fun f => recognized f = false) fs ->
  0 <= i -> i + len fs < 65536 ->
  truncation tail = Some what ->
  readFields (pre ++ fields_bytes fs ++ tail) (length fs + S remaining) i
    (len pre)
  = Ret (None, Some (fmt_Errorf "invalid extra data: field " (i + len fs)
                       what)).
Proof.
  intros Hfit Hun Hi Hlt Ht.
  rewrite readFields_skip by done.
  rewrite <- len_app, app_assoc.
  destruct tail as [|id0 [|id1 [|ver [|l0 [|l1 rest]]]]];
    try (injection Ht as <-;
         apply readFields_header_incomplete; vm_compute; done).
  rewrite readFields_header. cbv zeta. cbn [truncation] in Ht.
  destruct (_ >? _); [injection Ht as <-; reflexivity | discriminate].
Qed.

(** C3, as amended. Truncation safety of the container decoder: for every
    container of version 0x01 that announces more fields than it holds in
    full, where the complete fields are all unrecognized and the bytes left
    for the next field have an incomplete header or declare more data than
    remains, [unmarshalSessionExtra] returns no value and the malformed-input
    error naming the index of that field, a message no other index gives;
    and on every input whatsoever the decoder returns without a panic, so
    without a read out of bounds. *)
Theorem truncated_field_is_reported (fs : list SessionExtraField)
    (count : Z) (tail : list byte) (what : string) :
  Forall field_fits fs ->
  Forall (fun f => recognized f = false) fs ->
  len fs < count < 65536 ->
  truncation tail = Some what ->
  unmarshalSessionExtra
    (container_bytes SessionExtraVersion count (fields_bytes fs ++ tail))
  = Ret (None, Some (fmt_Errorf "invalid extra data: field " (len fs) what))
  /\ (forall j, 0 <= j ->
      fmt_Errorf "invalid extra data: field " j what
      = fmt_Errorf "invalid extra data: field " (len fs) what ->
      j = len fs)
  /\ forall extraData, exists r, unmarshalSessionExtra extraData = Ret r.
Proof.
  intros Hfit Hun Hcount Ht.
  split; [|split; [|apply unmarshalSessionExtra_total]].
  2: { intros j Hj. apply fmt_Errorf_index_inj; [done | apply len_nonneg]. }
  pose proof (len_nonneg fs).
  rewrite unmarshalSessionExtra_container by lia.
  unfold container_bytes.
  change (SessionExtraVersion :: be16 count ++ fields_bytes fs ++ tail)
    with ((SessionExtraVersion :: be16 count) ++ fields_bytes fs ++ tail).
  change 3 with (len (SessionExtraVersion :: be16 count)).
  replace (Z.to_nat count)
    with (length fs + S (Z.to_nat count - length fs - 1))%nat
    by (unfold len in *; lia).
  rewrite (readFields_truncated fs _ tail _ 0 what) by (done || lia).
  reflexivity.
Qed.

Lemma truncated_field_is_reported_witness :
  unmarshalSessionExtra
    (container_bytes SessionExtraVersion 3
       (fields_bytes
          [ {| ID := 0x7002; Version := Byte.x01; Data := [Byte.xff] |} ]
        ++ [Byte.x70; Byte.x01; Byte.x01; Byte.x00; Byte.x09; Byte.x01]))
  = Ret (None, Some (fmt_Errorf "invalid extra data: field " 1
                       " data incomplete"))
  /\ (forall j, 0 <= j ->
      fmt_Errorf "invalid extra data: field " j " data incomplete"
      = fmt_Errorf "invalid extra data: field " 1 " data incomplete" ->
      j = 1)
  /\ forall extraData, exists r, unmarshalSessionExtra extraData = Ret r.
Proof.
  apply (truncated_field_is_reported
           [ {| ID := 0x7002; Version := Byte.x01; Data := [Byte.xff] |} ]
           3 [Byte.x70; Byte.x01; Byte.x01; Byte.x00; Byte.x09; Byte.x01]
           " data incomplete").
  - repeat constructor; cbn; lia.
  - repeat constructor.
  - vm_compute. split; reflexivity.
  - reflexivity.
Defined.

(** A container announcing two fields: the first is the known field, with
    a three-byte payload; of the second nothing is present, so its header
    is incomplete.  The decoder returns the value of the first field. *)
Lemma truncation_behind_known_field_is_missed :
  let known := {| ID := SessionExtraUTLSData; Version := SessionExtraVersion;
                  Data := [Byte.x01; Byte.x00; Byte.x00] |} in
  let extraData :=
    container_bytes SessionExtraVersion 2 (fields_bytes [known] ++ []) in
  field_fits known
  /\ len [known] < 2 < 65536
  /\ truncation [] = Some " header incomplete"
  /\ unmarshalSessionExtra extraData
     = Ret (Some {| ResumeType := ResumeSessionID; SessionID := [] |}, None)
  /\ unmarshalSessionExtra extraData
     <> Ret (None, Some (fmt_Errorf "invalid extra data: field " 1
                           " header incomplete")).
Proof.
  cbv zeta. split; [split; vm_compute; [split|]; (done || discriminate)|].
  split; [vm_compute; done|]. split; [reflexivity|].
  split; [reflexivity|discriminate].
Qed.

(** What the container encoder produces for a value that is not logically
    empty: the version, a count of one, and the single field 0x7001. *)
Lemma marshalSessionExtra_bytes (d : UTLSSessionData) :
  nothing_to_encode (Some d) = false ->
  let payload : list byte :=
    ResumeType d :: be16 (uint16 (len (SessionID d))) ++ SessionID d in
  marshalSessionExtra (Some d)
  = Ret (Some (SessionExtraVersion :: be16 1
               ++ be16 (uint16 SessionExtraUTLSData)
               ++ SessionExtraVersion :: be16 (uint16 (len payload))
               ++ payload)).
Proof.
  intros Hne payload. unfold marshalSessionExtra. rewrite Hne.
  rewrite marshalUTLSSessionData_bytes by done. go_step. fold payload.
  clearbody payload. cbv zeta. cbn [Data ID Version].
  pose proof (len_nonneg payload) as Hlen.
  change (0 + 1 + 2 + 2 + 1 + 2) with 8. change (0 + 1 + 2 + 2 + 1) with 6.
  change (0 + 1 + 2 + 2) with 5. change (0 + 1 + 2) with 3.
  change (0 + 1) with 1.
  rewrite make_Ret by lia. go_step.
  replace (Z.to_nat (1 + 2 + 2 + 1 + 2 + len payload))
    with (8 + length payload)%nat by (unfold len; lia).
  cbn [replicate Nat.add].
  rewrite set_index_cons_0. go_step.
  erewrite through_tail_cons;
    [| lia | apply through_tail_0, BigEndian_PutUint16_cons].
  go_step. cbn [be16 app].
  erewrite through_tail_cons; [| lia |].
  2: { do 2 (apply through_tail_cons; [lia|]).
       change (3 - 1 - 1 - 1) with 0.
       apply through_tail_0, BigEndian_PutUint16_cons. }
  go_step. cbn [be16 app].
  rewrite set_index_Ret by (len_simpl; lia). go_step.
  replace (Z.to_nat 5) with 5%nat by lia. cbn [insert list_insert].
  erewrite through_tail_cons; [| lia |].
  2: { do 5 (apply through_tail_cons; [lia|]).
       change (6 - 1 - 1 - 1 - 1 - 1 - 1) with 0.
       apply through_tail_0, BigEndian_PutUint16_cons. }
  go_step. cbn [be16 app].
  erewrite through_tail_cons; [| lia |].
  2: { do 7 (apply through_tail_cons; [lia|]).
       change (8 - 1 - 1 - 1 - 1 - 1 - 1 - 1 - 1) with 0.
       apply through_tail_0. reflexivity. }
  go_step. rewrite copy_exact by apply length_replicate. reflexivity.
Qed.

Lemma marshalSessionExtra_nil (data : option UTLSSessionData) :
  nothing_to_encode data = true -> marshalSessionExtra data = Ret None.
Proof. intros He. unfold marshalSessionExtra. rewrite He. reflexivity. Qed.

(** C5. The wire-format scenario: the value {SessionID, 0x00..0x1F} is
    encoded and wrapped into exactly 43 bytes, laid out as
    version(1), count = 1 (2), id = 0x7001 (2), field version (1),
    length = 35 (2) and the 35-byte payload; decoding these 43 bytes gives
    the value back. *)
Theorem session_id_scenario :
  let v := {| ResumeType := ResumeSessionID; SessionID := ascending_32 |} in
  exists payload wire,
    marshalUTLSSessionData (Some v) = Ret (Some payload)
    /\ marshalSessionExtra (Some v) = Ret (Some wire)
    /\ len payload = 35
    /\ len wire = 43
    /\ wire = [SessionExtraVersion] ++ be16 1 ++ be16 0x7001
              ++ [SessionExtraVersion] ++ be16 35 ++ payload
    /\ payload = [ResumeSessionID] ++ be16 32 ++ ascending_32
    /\ unmarshalSessionExtra wire = Ret (Some v, None).
Proof.
  cbv zeta. eexists. eexists.
  split; [vm_compute; reflexivity|].
  split; [vm_compute; reflexivity|].
  repeat split; vm_compute; reflexivity.
Qed.

(* ===================================================================== *)
(** * The slots of a session state                                        *)
(* ===================================================================== *)

Lemma starts_with_version_owned (extraItem : list byte) :
  starts_with_version extraItem = Ret (codec_owned extraItem).
Proof.
  unfold starts_with_version. destruct extraItem as [|b rest].
  - reflexivity.
  - rewrite len_cons, Z.geb_leb. pose proof (len_nonneg rest).
    destruct (Z.leb_spec 1 (1 + len rest)); [|lia].
    rewrite index_cons_0. reflexivity.
Qed.

Lemma not_ours_foreign (extraItem : list byte) :
  not_ours extraItem = Ret (negb (codec_owned extraItem)).
Proof.
  unfold not_ours. destruct extraItem as [|b rest].
  - reflexivity.
  - rewrite len_cons. pose proof (len_nonneg rest).
    destruct (Z.eqb_spec (1 + len rest) 0); [lia|].
    rewrite index_cons_0. reflexivity.
Qed.

Lemma ClearSessionExtraFields_range_filter (items : list (list byte)) :
  forall newExtra,
    ClearSessionExtraFields_range items newExtra
    = Ret (newExtra ++ foreign_slots items).
Proof.
  unfold foreign_slots.
  induction items as [|extraItem items IH]; intros newExtra.
  - cbn. rewrite app_nil_r. reflexivity.
  - cbn [ClearSessionExtraFields_range]. rewrite not_ours_foreign. go_step.
    rewrite IH, filter_cons.
    destruct (codec_owned extraItem) eqn:Ho; cbn [negb].
    + rewrite decide_False by done. reflexivity.
    + rewrite decide_True by done. rewrite <- app_assoc. reflexivity.
Qed.

(** [ClearSessionExtraFields] keeps the foreign slots, in their order. *)
Lemma ClearSessionExtraFields_foreign (s : SessionState) :
  ClearSessionExtraFields s = Ret {| Extra := foreign_slots (Extra s) |}.
Proof.
  unfold ClearSessionExtraFields.
  rewrite ClearSessionExtraFields_range_filter. reflexivity.
Qed.

(** The encoder gives nothing, or a slot that begins with the version. *)
Lemma marshalSessionExtra_owned (data : option UTLSSessionData) :
  marshalSessionExtra data = Ret None
  \/ exists extraData,
       marshalSessionExtra data = Ret (Some extraData)
       /\ codec_owned extraData = true.
Proof.
  destruct (nothing_to_encode data) eqn:He.
  - left. apply marshalSessionExtra_nil, He.
  - right. destruct data as [d|]; [|discriminate].
    eexists. split; [apply marshalSessionExtra_bytes, He | reflexivity].
Qed.

Lemma foreign_slots_idemp (extra : list (list byte)) :
  foreign_slots (foreign_slots extra) = foreign_slots extra.
Proof.
  unfold foreign_slots. rewrite list_filter_filter.
  apply list_filter_iff. tauto.
Qed.

Lemma owned_slots_foreign (extra : list (list byte)) :
  owned_slots (foreign_slots extra) = [].
Proof.
  unfold owned_slots, foreign_slots. rewrite list_filter_filter.
  induction extra as [|x extra IH]; [reflexivity|].
  rewrite filter_cons, decide_False; [exact IH|].
  intros [H1 H2]. congruence.
Qed.

Lemma foreign_slots_app (l k : list (list byte)) :
  foreign_slots (l ++ k) = foreign_slots l ++ foreign_slots k.
Proof. apply filter_app. Qed.

Lemma owned_slots_app (l k : list (list byte)) :
  owned_slots (l ++ k) = owned_slots l ++ owned_slots k.
Proof. apply filter_app. Qed.

(** [SetSessionExtraFields] keeps the foreign slots and appends what the
    encoder gives, if anything. *)
Lemma SetSessionExtraFields_slots (s : SessionState)
    (data : option UTLSSessionData) :
  exists encoded,
    marshalSessionExtra data = Ret encoded
    /\ SetSessionExtraFields s data
       = Ret {| Extra := foreign_slots (Extra s)
                         ++ match encoded with
                            | Some extraData => [extraData]
                            | None => []
                            end |}.
Proof.
  unfold SetSessionExtraFields.
  destruct (marshalSessionExtra_owned data) as [E | (extraData & E & _)];
    rewrite E; eexists; (split; [reflexivity|]); go_step;
    rewrite ClearSessionExtraFields_foreign.
  - rewrite app_nil_r. reflexivity.
  - reflexivity.
Qed.

(** C6. Idempotent clear and frame preservation: for every session state,
    clearing twice leaves the same [Extra] list as clearing once; and for
    every session state and every value, setting then clearing leaves no
    slot that begins with 0x01, while the foreign slots present before are
    all still there, unchanged and in their original order: the list that
    remains is the list of the foreign slots of the initial state. *)
Theorem clear_is_idempotent_and_keeps_foreign (s : SessionState)
    (data : option UTLSSessionData) :
  (s1 ← ClearSessionExtraFields s; ClearSessionExtraFields s1)
  = ClearSessionExtraFields s
  /\ exists s2,
       (s1 ← SetSessionExtraFields s data; ClearSessionExtraFields s1)
       = Ret s2
       /\ owned_slots (Extra s2) = []
       /\ Extra s2 = foreign_slots (Extra s)
       /\ foreign_slots (Extra s2) = foreign_slots (Extra s).
Proof.
  split.
  - rewrite !ClearSessionExtraFields_foreign. go_step.
    rewrite ClearSessionExtraFields_foreign. cbn [Extra].
    rewrite foreign_slots_idemp. reflexivity.
  - destruct (SetSessionExtraFields_slots s data) as (encoded & Hm & ->).
    go_step. rewrite ClearSessionExtraFields_foreign. cbn [Extra].
    eexists. split; [reflexivity|]. cbn [Extra].
    assert (foreign_slots
              (foreign_slots (Extra s)
               ++ match encoded with
                  | Some extraData => [extraData]
                  | None => []
                  end) = foreign_slots (Extra s)) as ->.
    { rewrite foreign_slots_app, foreign_slots_idemp.
      destruct (marshalSessionExtra_owned data) as [E | (x & E & Hx)];
        rewrite E in Hm; injection Hm as <-.
      - apply app_nil_r.
      - unfold foreign_slots at 2. rewrite filter_cons, decide_False by
          (rewrite Hx; discriminate).
        apply app_nil_r. }
    split; [apply owned_slots_foreign|].
    split; [reflexivity | apply foreign_slots_idemp].
Qed.

(** C7. Single owned slot: after [SetSessionExtraFields] as after
    [ClearSessionExtraFields], whatever the slots before the call, at most
    one slot of [Extra] begins with the codec version 0x01 (none at all
    after a clear). *)
Theorem at_most_one_owned_slot (s : SessionState)
    (data : option UTLSSessionData) :
  exists s_set s_clear,
    SetSessionExtraFields s data = Ret s_set
    /\ ClearSessionExtraFields s = Ret s_clear
    /\ (length (owned_slots (Extra s_set)) <= 1)%nat
    /\ length (owned_slots (Extra s_clear)) = 0%nat.
Proof.
  destruct (SetSessionExtraFields_slots s data) as (encoded & Hm & Hset).
  rewrite Hset, ClearSessionExtraFields_foreign.
  eexists. eexists. split; [reflexivity|]. split; [reflexivity|].
  cbn [Extra]. rewrite owned_slots_app, !owned_slots_foreign.
  split; [|reflexivity].
  destruct encoded as [extraData|]; [|cbn; lia].
  unfold owned_slots. rewrite filter_cons.
  destruct (decide _); cbn; lia.
Qed.

Lemma HasSessionExtra_range_owned (items : list (list byte)) :
  HasSessionExtra_range items
  = Ret (bool_decide (owned_slots items <> [])).
Proof.
  unfold owned_slots. induction items as [|extraItem items IH];
    [reflexivity|].
  cbn [HasSessionExtra_range]. rewrite starts_with_version_owned. go_step.
  rewrite filter_cons. destruct (codec_owned extraItem) eqn:Ho.
  - rewrite decide_True by done. reflexivity.
  - rewrite decide_False by done. exact IH.
Qed.

(** [HasSessionExtra] reports whether some slot begins with the version. *)
Lemma HasSessionExtra_owned (s : SessionState) :
  HasSessionExtra s = Ret (bool_decide (owned_slots (Extra s) <> [])).
Proof.
  unfold HasSessionExtra. destruct (Extra s) as [|x l] eqn:E.
  - reflexivity.
  - rewrite len_cons. pose proof (len_nonneg l).
    destruct (Z.eqb_spec (1 + len l) 0); [lia|].
    apply HasSessionExtra_range_owned.
Qed.

(** Where every slot of the codec fails to decode or decodes to no known
    field, the loop of [GetSessionExtraFields] finds nothing. *)
Lemma GetSessionExtraFields_range_nil (items : list (list byte)) :
  Forall (fun extraItem =>
            codec_owned extraItem = true ->
            exists r, unmarshalSessionExtra extraItem = Ret r /\ no_data r)
    items ->
  GetSessionExtraFields_range items = Ret None.
Proof.
  induction 1 as [|extraItem items Hx _ IH]; [reflexivity|].
  cbn [GetSessionExtraFields_range]. rewrite starts_with_version_owned.
  go_step. destruct (codec_owned extraItem); [|exact IH].
  destruct (Hx eq_refl) as ([utlsData [err|]] & Hr & Hn); rewrite Hr; go_step.
  - exact IH.
  - cbn in Hn. subst utlsData. reflexivity.
Qed.

Lemma GetSessionExtraFields_nil (s : SessionState) :
  Forall (fun extraItem =>
            codec_owned extraItem = true ->
            exists r, unmarshalSessionExtra extraItem = Ret r /\ no_data r)
    (Extra s) ->
  GetSessionExtraFields s = Ret None.
Proof.
  intros Hall. unfold GetSessionExtraFields.
  rewrite HasSessionExtra_owned. go_step.
  destruct (negb _); [reflexivity|].
  apply GetSessionExtraFields_range_nil, Hall.
Qed.

(** C10. [HasSessionExtra] answering true does not promise a value from
    [GetSessionExtraFields]: there is a session state, all of whose slots
    beginning with 0x01 fail to decode or decode to no recognized field,
    for which [HasSessionExtra] returns true and [GetSessionExtraFields]
    returns nil. *)
Theorem has_extra_does_not_imply_data :
  exists s : SessionState,
    Forall (fun extraItem =>
              codec_owned extraItem = true ->
              exists r, unmarshalSessionExtra extraItem = Ret r /\ no_data r)
      (Extra s)
    /\ HasSessionExtra s = Ret true
    /\ GetSessionExtraFields s = Ret None.
Proof.
  exists {| Extra := [ [Byte.x01];
                       [Byte.x07; Byte.x07];
                       [Byte.x01; Byte.x00; Byte.x00] ] |}.
  assert (Forall (fun extraItem =>
              codec_owned extraItem = true ->
              exists r, unmarshalSessionExtra extraItem = Ret r /\ no_data r)
            [ [Byte.x01]; [Byte.x07; Byte.x07];
              [Byte.x01; Byte.x00; Byte.x00] ]) as Hall.
  { repeat constructor; intros _; eexists; (split; [reflexivity|]);
      exact I || reflexivity. }
  split; [exact Hall|]. split; [reflexivity|].
  apply GetSessionExtraFields_nil, Hall.
Qed.

(* ===================================================================== *)
(** * The pool of ECDHE keys                                              *)
(* ===================================================================== *)

Section KeyPoolProperties.
Context `{env : KeyPoolEnv}.

(** The group has a pool exactly when it has a curve. *)
Lemma getCacheForCurveID_curve (curveID : CurveID) :
  match getCacheForCurveID curveID, curveForCurveID curveID with
  | Some _, Some _ | None, None => True
  | _, _ => False
  end.
Proof.
  unfold getCacheForCurveID, curveForCurveID.
  repeat destruct (_ =? _); exact I.
Qed.

Lemma curveForCurveID_supported (curveID : CurveID) :
  is_Some (curveForCurveID curveID)
  <-> curveID = X25519 \/ curveID = CurveP256
      \/ curveID = CurveP384 \/ curveID = CurveP521.
Proof.
  unfold curveForCurveID.
  destruct (Z.eqb_spec curveID X25519); [split; eauto|].
  destruct (Z.eqb_spec curveID CurveP256); [split; eauto|].
  destruct (Z.eqb_spec curveID CurveP384); [split; eauto|].
  destruct (Z.eqb_spec curveID CurveP521); [split; eauto|].
  split; [intros [? [=]] | intros [?|[?|[?|?]]]; done].
Qed.

(** The filling loop stays within the slice it fills. *)
Lemma init_loop_Ret (curve : Curve) (remaining : nat) :
  forall (i : Z) (ks : list (option PrivateKey)) (r : Reader),
    0 <= i -> i + Z.of_nat remaining <= len ks ->
    exists ks' r',
      init_loop curve remaining i ks r = Ret (ks', r') /\ len ks' = len ks.
Proof.
  induction remaining as [|remaining IH]; intros i ks r Hi Hlen.
  - eexists. eexists. split; reflexivity.
  - cbn [init_loop]. destruct (GenerateKey curve r) as [[key err] r1].
    destruct err as [e|].
    + apply IH; lia.
    + rewrite set_index_Ret by lia. go_step.
      destruct (IH (i + 1) (<[Z.to_nat i := key]> ks) r1) as (ks' & r' & E & L);
        [lia | len_simpl; lia |].
      exists ks', r'. split; [exact E|]. rewrite L. len_simpl. reflexivity.
Qed.

Lemma deref_assign (g : globals) (kc : keyCache_ptr) (c : keyCache) :
  deref (assign g kc c) kc = c.
Proof. destruct kc; reflexivity. Qed.

(** [init] always returns, and leaves the pool initialized. *)
Lemma keyCache_init_Ret (kc : keyCache_ptr) (curve : Curve) (g : globals) :
  exists g',
    keyCache_init kc curve g = Ret g' /\ initialized (deref g' kc) = true.
Proof.
  unfold keyCache_init. destruct (initialized (deref g kc)) eqn:Hinit.
  - exists g. split; [reflexivity | exact Hinit].
  - destruct (init_loop_Ret curve (Z.to_nat keyCacheSize) 0
                (replicate (Z.to_nat keyCacheSize) None)
                (cryptorand_Reader g)) as (ks & r & E & _);
      [lia | len_simpl; lia |].
    rewrite E. go_step. eexists. split; [reflexivity|].
    rewrite deref_assign. reflexivity.
Qed.

(** [init] on one pool leaves the other pools as they were. *)
Lemma keyCache_init_frame (kc kc' : keyCache_ptr) (curve : Curve)
    (g g' : globals) :
  keyCache_init kc curve g = Ret g' -> kc' <> kc ->
  deref g' kc' = deref g kc'.
Proof.
  unfold keyCache_init. destruct (initialized (deref g kc)).
  - intros [= <-] _. reflexivity.
  - destruct (init_loop_Ret curve (Z.to_nat keyCacheSize) 0
                (replicate (Z.to_nat keyCacheSize) None)
                (cryptorand_Reader g)) as (ks & r & E & _);
      [lia | len_simpl; lia |].
    rewrite E. go_step. intros [= <-] Hne.
    destruct kc, kc'; try done; reflexivity.
Qed.

(** [InitAllKeyCaches] returns with the four pools initialized. *)
Lemma InitAllKeyCaches_Ret (g : globals) :
  exists g',
    InitAllKeyCaches g = Ret g'
    /\ forall kc, initialized (deref g' kc) = true.
Proof.
  unfold InitAllKeyCaches.
  destruct (keyCache_init_Ret ptr_X25519 ecdh_X25519 g) as (g1 & E1 & I1).
  rewrite E1. go_step.
  destruct (keyCache_init_Ret ptr_P256 ecdh_P256 g1) as (g2 & E2 & I2).
  rewrite E2. go_step.
  destruct (keyCache_init_Ret ptr_P384 ecdh_P384 g2) as (g3 & E3 & I3).
  rewrite E3. go_step.
  destruct (keyCache_init_Ret ptr_P521 ecdh_P521 g3) as (g4 & E4 & I4).
  exists g4. split; [exact E4|]. intros kc.
  pose proof (keyCache_init_frame _ ptr_X25519 _ _ _ E2) as F2.
  pose proof (keyCache_init_frame _ ptr_X25519 _ _ _ E3) as F3x.
  pose proof (keyCache_init_frame _ ptr_P256 _ _ _ E3) as F3.
  pose proof (keyCache_init_frame _ ptr_X25519 _ _ _ E4) as F4x.
  pose proof (keyCache_init_frame _ ptr_P256 _ _ _ E4) as F4p.
  pose proof (keyCache_init_frame _ ptr_P384 _ _ _ E4) as F4.
  destruct kc.
  - rewrite F4x, F3x, F2 by done. exact I1.
  - rewrite F4p, F3 by done. exact I2.
  - rewrite F4 by done. exact I3.
  - exact I4.
Qed.

(** [getRandomKey] always returns; what it returns is [nil] or a key held
    in a slot of the pool. *)
Lemma getRandomKey_Ret (kc : keyCache_ptr) (g : globals) :
  exists key g',
    getRandomKey kc g = Ret (key, g')
    /\ deref g' kc = deref g kc
    /\ (key = None \/ key ∈ keys (deref g' kc)).
Proof.
  unfold getRandomKey.
  destruct (negb (initialized (deref g kc)) || (len (keys (deref g kc)) =? 0))
    eqn:Hc.
  - exists None, g. auto.
  - apply orb_false_elim in Hc as [_ Hn]. apply Z.eqb_neq in Hn.
    pose proof (len_nonneg (keys (deref g kc))) as Hpos.
    unfold mathrand_IntN.
    destruct (Z.leb_spec (len (keys (deref g kc))) 0); [lia|].
    destruct (mathrand_draw (mathrand_state g)) as [x m]. go_step.
    assert (deref (set_mathrand g m) kc = deref g kc) as Hd
      by (destruct kc; reflexivity).
    rewrite Hd.
    destruct (index_Ret (keys (deref g kc)) (x mod len (keys (deref g kc))))
      as (key & -> & Hk).
    { apply Z.mod_pos_bound. lia. }
    go_step. exists key, (set_mathrand g m).
    split; [reflexivity|]. split; [exact Hd|]. right. rewrite Hd.
    eapply list_elem_of_lookup_2, Hk.
Qed.

(** The attempt on the pool always returns; a key it finds sits in the
    pool of the group. *)
Lemma try_cache_Ret (curveID : CurveID) (g : globals) :
  exists cached g',
    try_cache curveID g = Ret (cached, g')
    /\ match cached with
       | Some k =>
           exists cache, getCacheForCurveID curveID = Some cache
                         /\ Some k ∈ keys (deref g' cache)
       | None => getCacheForCurveID curveID = None -> g' = g
       end.
Proof.
  unfold try_cache. destruct (getCacheForCurveID curveID) as [cache|] eqn:Hc.
  - assert (exists g1, (if negb (initialized (deref g cache))
                       then match curveForCurveID curveID with
                            | Some curve => keyCache_init cache curve g
                            | None => Ret g
                            end
                       else Ret g) = Ret g1) as [g1 ->].
    { destruct (negb _); [|eauto]. destruct (curveForCurveID curveID); [|eauto].
      destruct (keyCache_init_Ret cache c g) as (g1 & -> & _). eauto. }
    go_step.
    destruct (getRandomKey_Ret cache g1) as (key & g' & -> & _ & Hk).
    exists key, g'. split; [reflexivity|].
    destruct key as [k|]; [|discriminate].
    exists cache. split; [reflexivity|]. destruct Hk; done.
  - exists None, g. auto.
Qed.

(** C8. The acquire contract of the key pool: for a supported curve
    (X25519, P-256, P-384, P-521) and any state of the pools, initialized or
    not, [generateECDHEKey] returns; what it returns is either a non-nil key
    held in the pool of the group, without error, or the very outcome of
    generating a key directly, so a nil slot of a partially filled pool is
    never handed out; when that direct generation succeeds the key returned
    is not nil and there is no error.  For a curve ID outside the supported
    set it fails with the unsupported-curve error. *)
Theorem generateECDHEKey_contract (rand : Reader) (curveID : CurveID)
    (g : globals) :
  (is_Some (curveForCurveID curveID)
   <-> curveID = X25519 \/ curveID = CurveP256
       \/ curveID = CurveP384 \/ curveID = CurveP521)
  /\ match curveForCurveID curveID with
     | Some curve =>
         exists key err rand' g',
           generateECDHEKey rand curveID g = Ret (key, err, rand', g')
           /\ ((exists k cache,
                  key = Some k /\ err = None /\ rand' = rand
                  /\ getCacheForCurveID curveID = Some cache
                  /\ Some k ∈ keys (deref g' cache))
               \/ (key, err, rand') = GenerateKey curve rand)
           /\ (forall k r, GenerateKey curve rand = (Some k, None, r) ->
               exists k', key = Some k' /\ err = None)
     | None =>
         generateECDHEKey rand curveID g
         = Ret (None,
                Some (errors_New "tls: internal error: unsupported curve"),
                rand, g)
     end.
Proof.
  split; [apply curveForCurveID_supported|].
  unfold generateECDHEKey.
  destruct (try_cache_Ret curveID g) as (cached & g' & -> & Hcached).
  go_step. pose proof (getCacheForCurveID_curve curveID) as Hagree.
  destruct (curveForCurveID curveID) as [curve|].
  - destruct cached as [k|].
    + destruct Hcached as (cache & Hc & Hin).
      exists (Some k), None, rand, g'. split; [reflexivity|].
      split; [left; exists k, cache; auto | eauto].
    + destruct (GenerateKey curve rand) as [[key err] rand'] eqn:Hgen.
      exists key, err, rand', g'. split; [reflexivity|].
      split; [right; reflexivity|].
      intros k r [= -> -> ->]. eauto.
  - destruct (getCacheForCurveID curveID); [done|].
    destruct cached as [k|].
    + destruct Hcached as (cache & [=] & _).
    + rewrite Hcached by reflexivity. reflexivity.
Qed.

End KeyPoolProperties.

(** The sample pool is half filled: its odd slots are nil.  A draw of an
    even slot hands out the pooled key; a draw of an odd slot falls back on
    direct generation, and reports the failure of that generation rather
    than the nil slot. *)
Example generateECDHEKey_pooled :
  key_and_error (generateECDHEKey (env := sample_pool_env) 1000%nat 29
                   (sample_globals 42))
  = Ret (Some 42%nat, None).
Proof. vm_compute. reflexivity. Qed.

Example generateECDHEKey_nil_slot_falls_back :
  key_and_error (generateECDHEKey (env := sample_pool_env) 1000%nat 29
                   (sample_globals 43))
  = Ret (Some 1000%nat, None).
Proof. vm_compute. reflexivity. Qed.

Example generateECDHEKey_fallback_fails :
  key_and_error (generateECDHEKey (env := sample_pool_env) 1001%nat 29
                   (sample_globals 43))
  = Ret (None, Some (errors_New "generation failed")).
Proof. vm_compute. reflexivity. Qed.

Example generateECDHEKey_unsupported :
  key_and_error (generateECDHEKey (env := sample_pool_env) 1000%nat 30
                   (sample_globals 42))
  = Ret (None, Some (errors_New "tls: internal error: unsupported curve")).
Proof. vm_compute. reflexivity. Qed.

(* ===================================================================== *)
(** * The key schedule                                                    *)
(* ===================================================================== *)

Section KeyScheduleProperties.
Context `{env : KeyScheduleEnv}.

(** Writing [p] into a fresh MAC object and summing gives the MAC of [p]. *)
Lemma hmac_Sum_Write_New (h : crypto_Hash) (key p : list byte) :
  hmac_Sum (hmac_Write (hmac_New h key) p) [] = HMAC h key p.
Proof. reflexivity. Qed.

(** C9. The shape of the derivations: [nextTrafficSecret] is
    HKDF-Expand-Label with label "traffic upd", empty context and the hash
    size as length; [trafficKey] is the pair of HKDF-Expand-Label with
    labels "key" and "iv" and lengths the AEAD key length of the suite and
    the fixed nonce length; [finishedHash] derives a key with label
    "finished" and the hash size as length and returns the HMAC of the
    transcript digest under that key, which has the length of the hash where
    the HMAC primitive gives outputs of that length. *)
Theorem key_schedule_shape (c : cipherSuiteTLS13)
    (secret baseKey : list byte) (transcript : hash_Hash) :
  (forall h key message, len (HMAC h key message) = Hash_Size h) ->
  nextTrafficSecret c secret
  = ExpandLabel (hash c) secret "traffic upd" [] (Hash_Size (hash c))
  /\ trafficKey c secret
     = (ExpandLabel (hash c) secret "key" [] (keyLen c),
        ExpandLabel (hash c) secret "iv" [] aeadNonceLength)
  /\ finishedHash c baseKey transcript
     = HMAC (hash c)
         (ExpandLabel (hash c) baseKey "finished" [] (Hash_Size (hash c)))
         (digest transcript)
  /\ len (finishedHash c baseKey transcript) = Hash_Size (hash c).
Proof.
  intros Hmac.
  assert (finishedHash c baseKey transcript
          = HMAC (hash c)
              (ExpandLabel (hash c) baseKey "finished" []
                 (Hash_Size (hash c)))
              (digest transcript)) as Hfin.
  { unfold finishedHash. cbv zeta. unfold Sum. cbn [app].
    apply hmac_Sum_Write_New. }
  split; [reflexivity|]. split; [reflexivity|].
  split; [exact Hfin|]. rewrite Hfin. apply Hmac.
Qed.

End KeyScheduleProperties.

Lemma key_schedule_shape_witness :
  nextTrafficSecret sample_suite [Byte.x01; Byte.x02; Byte.x03]
  = [Byte.x01; Byte.x02; Byte.x03; Byte.x00]
  /\ trafficKey sample_suite [Byte.x01; Byte.x02; Byte.x03]
     = ([Byte.x01; Byte.x02],
        [Byte.x01; Byte.x02; Byte.x03; Byte.x00; Byte.x00; Byte.x00;
         Byte.x00; Byte.x00; Byte.x00; Byte.x00; Byte.x00; Byte.x00])
  /\ finishedHash sample_suite [Byte.x09] [Byte.x08]
     = [Byte.x09; Byte.x00; Byte.x00; Byte.x00]
  /\ len (finishedHash sample_suite [Byte.x09] [Byte.x08]) = 4.
Proof.
  apply (key_schedule_shape (env := sample_schedule_env) sample_suite
           [Byte.x01; Byte.x02; Byte.x03] [Byte.x09] [Byte.x08]).
  intros h key message.
  change (len (take 4 (key ++ message ++ replicate 4 Byte.x00)) = 4).
  unfold len. rewrite length_take, !length_app, length_replicate. lia.
Defined.

(* ===================================================================== *)
(** * The payload decoder over the store of arrays                        *)
(* ===================================================================== *)

Lemma Heap_contents_Window (h : Heap.store) (a : Heap.loc) (off n : Z)
    (bs : list byte) :
  Heap.contents h (Heap.Window a off n) = Some bs ->
  exists arr,
    h !! a = Some arr /\ 0 <= off /\ 0 <= n /\ off + n <= len arr
    /\ bs = take (Z.to_nat n) (drop (Z.to_nat off) arr).
Proof.
  cbn [Heap.contents]. destruct (h !! a) as [arr|]; [|done].
  destruct (Z.leb_spec 0 off), (Z.leb_spec 0 n),
    (Z.leb_spec (off + n) (len arr)); cbn [andb]; try done.
  intros [= <-]. eauto 10.
Qed.

Lemma Heap_contents_len (h : Heap.store) (s : Heap.slice_val)
    (bs : list byte) :
  Heap.contents h s = Some bs -> len bs = Heap.len s.
Proof.
  destruct s as [|a off n]; [intros [= <-]; reflexivity|].
  intros (arr & _ & ? & ? & ? & ->)%Heap_contents_Window.
  cbn [Heap.len]. len_simpl. lia.
Qed.

(** Reading a slice in the store reads the bytes it denotes. *)
Lemma Heap_index_contents (h : Heap.store) (s : Heap.slice_val)
    (bs : list byte) (i : Z) :
  Heap.contents h s = Some bs -> Heap.index h s i = index bs i.
Proof.
  intros Hc. pose proof (Heap_contents_len _ _ _ Hc) as Hlen.
  unfold Heap.index, index. rewrite Hlen.
  destruct ((0 <=? i) && (i <? Heap.len s)) eqn:Hin; [|reflexivity].
  apply andb_prop in Hin as [H0 Hi]. apply Z.leb_le in H0.
  apply Z.ltb_lt in Hi.
  destruct s as [|a off n]; [cbn in Hi; lia|]. cbn [Heap.len] in *.
  apply Heap_contents_Window in Hc as (arr & -> & ? & ? & ? & ->).
  unfold index.
  destruct (Z.leb_spec 0 (off + i)), (Z.ltb_spec (off + i) (len arr));
    try lia. cbn [andb].
  rewrite lookup_take_lt, lookup_drop by lia.
  replace (Z.to_nat off + Z.to_nat i)%nat with (Z.to_nat (off + i)) by lia.
  reflexivity.
Qed.

Lemma Heap_Uint16_contents (h : Heap.store) (b : Heap.slice_val)
    (bs : list byte) :
  Heap.contents h b = Some bs ->
  Heap.BigEndian_Uint16 h b = BigEndian_Uint16 bs.
Proof.
  intros Hc. unfold Heap.BigEndian_Uint16, BigEndian_Uint16.
  rewrite !(Heap_index_contents h b bs) by done. reflexivity.
Qed.

(** Reslicing gives a window on the same array, denoting the sub-range. *)
Lemma Heap_slice_contents (h : Heap.store) (s : Heap.slice_val)
    (bs : list byte) (lo hi : Z) :
  Heap.contents h s = Some bs ->
  0 <= lo <= hi -> hi <= len bs ->
  exists s',
    Heap.slice s lo hi = Ret s'
    /\ Heap.contents h s'
       = Some (take (Z.to_nat (hi - lo)) (drop (Z.to_nat lo) bs))
    /\ (Heap.array_of s' = None \/ Heap.array_of s' = Heap.array_of s).
Proof.
  intros Hc Hlo Hhi. pose proof (Heap_contents_len _ _ _ Hc) as Hlen.
  unfold Heap.slice. rewrite <- Hlen.
  destruct (Z.leb_spec 0 lo), (Z.leb_spec lo hi), (Z.leb_spec hi (len bs));
    try lia. cbn [andb].
  destruct s as [|a off n].
  - injection Hc as <-. exists Heap.NilSlice.
    split; [reflexivity|]. split; [|left; reflexivity].
    cbn [Heap.contents]. rewrite drop_nil, take_nil. reflexivity.
  - cbn [Heap.len] in Hlen.
    apply Heap_contents_Window in Hc as (arr & Ha & ? & ? & ? & ->).
    exists (Heap.Window a (off + lo) (hi - lo)).
    split; [reflexivity|]. split; [|right; reflexivity].
    cbn [Heap.contents]. rewrite Ha.
    destruct (Z.leb_spec 0 (off + lo)), (Z.leb_spec 0 (hi - lo)),
      (Z.leb_spec (off + lo + (hi - lo)) (len arr)); try lia. cbn [andb].
    f_equal. apply list_eq. intros j.
    destruct (decide (j < Z.to_nat (hi - lo))%nat) as [Hj|Hj].
    + rewrite !lookup_take_lt, !lookup_drop by lia.
      rewrite lookup_take_lt, lookup_drop by lia. f_equal. lia.
    + rewrite !lookup_take_ge by lia. reflexivity.
Qed.

(** An allocation leaves what the other slices denote as it was. *)
Lemma Heap_contents_insert_fresh (h : Heap.store) (a : Heap.loc)
    (arr bs : list byte) (s : Heap.slice_val) :
  a ∉ dom h ->
  Heap.contents h s = Some bs ->
  Heap.contents (<[a := arr]> h) s = Some bs.
Proof.
  intros Hfresh Hc. destruct s as [|a' off n]; [exact Hc|].
  cbn [Heap.contents] in *. destruct (h !! a') as [arr'|] eqn:Ha'; [|done].
  rewrite lookup_insert_ne; [rewrite Ha'; exact Hc|].
  intros ->. apply Hfresh, elem_of_dom. eauto.
Qed.

(** C4. The error contract of the payload decoder, on a slice of the
    store denoting the bytes [bs]: it fails with the "too short" error
    exactly when there are fewer than 3 bytes; with 3 bytes or more it fails
    with the "incomplete" error when the declared session-ID length exceeds
    what remains; otherwise it succeeds, and the [SessionID] it returns is a
    copy: it lies in no array of the input (it is [nil] or a window of an
    array allocated by the call), so that whatever is later written into
    the array of the input leaves it unchanged.  The input itself is not
    modified, and the decoder on lists computes the same result. *)
Theorem payload_decoder_contract (h : Heap.store) (data : Heap.slice_val)
    (bs : list byte) :
  Heap.contents h data = Some bs ->
  exists r err h',
    Heap.unmarshalUTLSSessionData h data = Ret (r, err, h')
    /\ (err = Some (errors_New "invalid UTLS session data: too short")
        <-> len bs < 3)
    /\ (3 <= len bs -> 3 + declared_length bs > len bs ->
        r = None
        /\ err = Some (errors_New
                   "invalid UTLS session data: session ID incomplete"))
    /\ (3 <= len bs -> 3 + declared_length bs <= len bs ->
        err = None
        /\ exists v,
             r = Some v
             /\ bs !! 0%nat = Some (Heap.ResumeType v)
             /\ Heap.contents h' (Heap.SessionID v)
                = Some (take (Z.to_nat (declared_length bs)) (drop 3 bs))
             /\ Heap.array_of (Heap.SessionID v) <> Heap.array_of data
             /\ forall bytes,
                  Heap.contents (Heap.overwrite h' data bytes)
                    (Heap.SessionID v)
                  = Heap.contents h' (Heap.SessionID v))
    /\ Heap.contents h' data = Some bs
    /\ exists r_list,
         unmarshalUTLSSessionData bs = Ret (r_list, err)
         /\ match r, r_list with
            | Some v, Some w =>
                ResumeType w = Heap.ResumeType v
                /\ Heap.contents h' (Heap.SessionID v) = Some (SessionID w)
            | None, None => True
            | _, _ => False
            end.
Proof.
  intros Hc. pose proof (Heap_contents_len _ _ _ Hc) as Hlen.
  unfold Heap.unmarshalUTLSSessionData. rewrite <- Hlen. cbv zeta.
  destruct (Z.ltb_spec (len bs) 3) as [Hshort|Hlong].
  { exists None, (Some (errors_New "invalid UTLS session data: too short")), h.
    split; [reflexivity|]. split; [tauto|].
    split; [lia|]. split; [lia|]. split; [exact Hc|].
    exists None. split; [|exact I].
    apply unmarshalUTLSSessionData_short, Hshort. }
  destruct bs as [|rt [|b0 [|b1 rest]]]; try (vm_compute in Hlong; done).
  cbn [declared_length].
  set (n := byte_to_Z b0 * 256 + byte_to_Z b1).
  pose proof (byte_to_Z_range b0). pose proof (byte_to_Z_range b1).
  pose proof (len_nonneg rest) as Hrest.
  rewrite !len_cons in *.
  rewrite (Heap_index_contents h data _ 0 Hc), index_cons_0. go_step.
  unfold Heap.slice_from. rewrite <- Hlen.
  destruct (Heap_slice_contents h data _ (0 + 1) (1 + (1 + (1 + len rest))) Hc)
    as (tl & -> & Htl & _); [lia | rewrite !len_cons; lia |].
  go_step.
  replace (Z.to_nat (1 + (1 + (1 + len rest)) - (0 + 1)))
    with (S (S (length rest))) in Htl by (unfold len; lia).
  change (Z.to_nat (0 + 1)) with 1%nat in Htl. cbn [drop] in Htl.
  change (drop 0 (b0 :: b1 :: rest)) with (b0 :: b1 :: rest) in Htl.
  cbn [take] in Htl. rewrite firstn_all in Htl.
  rewrite (Heap_Uint16_contents h tl _ Htl), BigEndian_Uint16_cons.
  go_step. fold n. rewrite unmarshalUTLSSessionData_cons. cbv zeta. fold n.
  rewrite !Z.gtb_ltb.
  destruct (Z.ltb_spec (len rest) n),
    (Z.ltb_spec (1 + (1 + (1 + len rest))) (0 + 1 + 2 + n)); try lia.
  { exists None,
      (Some (errors_New "invalid UTLS session data: session ID incomplete")),
      h.
    split; [reflexivity|]. split; [split; [discriminate|lia]|].
    split; [auto|]. split; [lia|]. split; [exact Hc|].
    exists None. split; [reflexivity|exact I]. }
  destruct (Z.ltb_spec 0 n) as [Hpos|Hzero].
  - unfold Heap.make. destruct (Z.leb_spec 0 n); [|lia]. go_step.
    set (a := fresh (dom h)).
    assert (a ∉ dom h) as Hfresh by apply is_fresh.
    set (h1 := <[a := replicate (Z.to_nat n) Byte.x00]> h).
    destruct (Heap_slice_contents h data _ (0 + 1 + 2) (0 + 1 + 2 + n) Hc)
      as (src & -> & Hsrc & Hsrc_arr); [lia | rewrite !len_cons; lia |].
    go_step.
    replace (0 + 1 + 2 + n - (0 + 1 + 2)) with n in Hsrc by lia.
    change (Z.to_nat (0 + 1 + 2)) with 3%nat in Hsrc. cbn [drop] in Hsrc.
    change (drop 0 rest) with rest in Hsrc.
    assert (Heap.contents h1 src = Some (take (Z.to_nat n) rest)) as Hsrc1
      by (apply Heap_contents_insert_fresh; done).
    unfold Heap.copy. rewrite Hsrc1.
    unfold h1 at 1. rewrite lookup_insert_eq. go_step.
    replace (Z.to_nat (n `min` len (take (Z.to_nat n) rest)))
      with (Z.to_nat n) by (len_simpl; lia).
    change (Z.to_nat 0) with 0%nat. cbn [take Nat.add app].
    rewrite (take_ge (take (Z.to_nat n) rest)) by (rewrite length_take; lia).
    rewrite drop_ge, app_nil_r by (rewrite length_replicate; lia).
    unfold h1. rewrite insert_insert_eq.
    set (h2 := <[a := take (Z.to_nat n) rest]> h).
    assert (Heap.contents h2 (Heap.Window a 0 n)
            = Some (take (Z.to_nat n) rest)) as Hsid.
    { cbn [Heap.contents]. unfold h2. rewrite lookup_insert_eq.
      destruct (Z.leb_spec 0 0), (Z.leb_spec 0 n),
        (Z.leb_spec (0 + n) (len (take (Z.to_nat n) rest)));
        try lia; [|len_simpl; lia]. cbn [andb].
      change (Z.to_nat 0) with 0%nat. rewrite drop_0, take_take.
      f_equal. f_equal. lia. }
    assert (Heap.array_of data <> Some a) as Hne.
    { destruct data as [|a' off m]; [discriminate|].
      apply Heap_contents_Window in Hc as (arr & Ha' & _).
      cbn. intros [= ->]. apply Hfresh, elem_of_dom. eauto. }
    eexists. exists None, h2. split; [reflexivity|].
    split; [split; [discriminate|lia]|]. split; [lia|].
    split.
    { intros _ _. split; [reflexivity|]. eexists. split; [reflexivity|].
      cbn [Heap.ResumeType Heap.SessionID].
      split; [reflexivity|]. split; [exact Hsid|].
      split; [cbn; congruence|].
      intros bytes. destruct data as [|a' off m]; [reflexivity|].
      cbn [Heap.overwrite]. cbn [Heap.contents].
      rewrite lookup_insert_ne; [reflexivity|].
      intros ->. apply Hne. reflexivity. }
    split; [apply Heap_contents_insert_fresh; done|].
    eexists. split; [reflexivity|]. cbn. split; [reflexivity|exact Hsid].
  - go_step. assert (n = 0) as Hn by lia.
    eexists. exists None, h. split; [reflexivity|].
    split; [split; [discriminate|lia]|]. split; [lia|].
    split.
    { intros _ _. split; [reflexivity|]. eexists. split; [reflexivity|].
      cbn [Heap.ResumeType Heap.SessionID].
      split; [reflexivity|]. rewrite Hn.
      split; [reflexivity|].
      split; [|intros bytes; reflexivity].
      destruct data as [|a' off m]; [|discriminate].
      cbn in Hlen. lia. }
    split; [exact Hc|].
    eexists. split; [reflexivity|]. cbn. rewrite Hn. split; reflexivity.
Qed.

Lemma payload_decoder_contract_witness :
  let bs := [Byte.x02; Byte.x00; Byte.x02; Byte.xaa; Byte.xbb; Byte.xcc] in
  let h : Heap.store := {[ 7%nat := Byte.xff :: bs ]} in
  let data := Heap.Window 7%nat 1 6 in
  exists r err h',
    Heap.unmarshalUTLSSessionData h data = Ret (r, err, h')
    /\ (err = Some (errors_New "invalid UTLS session data: too short")
        <-> len bs < 3)
    /\ (3 <= len bs -> 3 + declared_length bs > len bs ->
        r = None
        /\ err = Some (errors_New
                   "invalid UTLS session data: session ID incomplete"))
    /\ (3 <= len bs -> 3 + declared_length bs <= len bs ->
        err = None
        /\ exists v,
             r = Some v
             /\ bs !! 0%nat = Some (Heap.ResumeType v)
             /\ Heap.contents h' (Heap.SessionID v)
                = Some (take (Z.to_nat (declared_length bs)) (drop 3 bs))
             /\ Heap.array_of (Heap.SessionID v) <> Heap.array_of data
             /\ forall bytes,
                  Heap.contents (Heap.overwrite h' data bytes)
                    (Heap.SessionID v)
                  = Heap.contents h' (Heap.SessionID v))
    /\ Heap.contents h' data = Some bs
    /\ exists r_list,
         unmarshalUTLSSessionData bs = Ret (r_list, err)
         /\ match r, r_list with
            | Some v, Some w =>
                ResumeType w = Heap.ResumeType v
                /\ Heap.contents h' (Heap.SessionID v) = Some (SessionID w)
            | None, None => True
            | _, _ => False
            end.
Proof.
  cbv zeta.
  apply (payload_decoder_contract
           {[ 7%nat := [Byte.xff; Byte.x02; Byte.x00; Byte.x02; Byte.xaa;
                        Byte.xbb; Byte.xcc] ]}
           (Heap.Window 7%nat 1 6)
           [Byte.x02; Byte.x00; Byte.x02; Byte.xaa; Byte.xbb; Byte.xcc]).
  vm_compute. reflexivity.
Defined.

(** The decoder run on a store holding one array: the identifier comes
    back as a window of a second array, which holds the copy. *)
Example payload_decoder_allocates :
  let h : Heap.store :=
    {[ 7%nat := [Byte.xff; Byte.x02; Byte.x00; Byte.x02; Byte.xaa;
                 Byte.xbb; Byte.xcc] ]} in
  exists a,
    a <> 7%nat
    /\ Heap.unmarshalUTLSSessionData h (Heap.Window 7%nat 1 6)
       = Ret (Some {| Heap.ResumeType := ResumeSessionTicket;
                      Heap.SessionID := Heap.Window a 0 2 |}, None,
              <[a := [Byte.xaa; Byte.xbb]]> h).
Proof.
  cbv zeta.
  set (h := ({[ 7%nat := [Byte.xff; Byte.x02; Byte.x00; Byte.x02; Byte.xaa;
                          Byte.xbb; Byte.xcc] ]} : Heap.store)).
  exists (fresh (dom h)). split.
  - intros E. pose proof (is_fresh (dom h)) as Hfresh.
    rewrite E in Hfresh. apply Hfresh, elem_of_dom.
    eexists. apply lookup_singleton_eq.
  - reflexivity.
Qed.

(* ===================================================================== *)
(** * Scenarios                                                           *)
(* ===================================================================== *)

(** Two foreign slots around one slot of the codec: after a clear the two
    foreign slots remain, unchanged and in their order. *)
Example clear_scenario :
  ClearSessionExtraFields
    {| Extra := [ [Byte.x05; Byte.x06];
                  [Byte.x01; Byte.x00; Byte.x00];
                  [Byte.x09] ] |}
  = Ret {| Extra := [ [Byte.x05; Byte.x06]; [Byte.x09] ] |}.
Proof. reflexivity. Qed.

(** Setting a value replaces the slots of the codec, wherever they were,
    by one slot at the end; reading gives the value back. *)
Example set_then_get_scenario :
  let v := {| ResumeType := ResumeSessionTicket;
              SessionID := [Byte.xaa; Byte.xbb] |} in
  let s := {| Extra := [ [Byte.x01]; [Byte.x05]; []; [Byte.x01; Byte.x02] ]
           |} in
  exists s',
    SetSessionExtraFields s (Some v) = Ret s'
    /\ foreign_slots (Extra s') = [ [Byte.x05]; [] ]
    /\ length (owned_slots (Extra s')) = 1%nat
    /\ GetSessionExtraFields s' = Ret (Some v).
Proof. cbv zeta. eexists. repeat split; reflexivity. Qed.

(** Setting the logically empty value only clears. *)
Example set_empty_scenario :
  SetSessionExtraFields
    {| Extra := [ [Byte.x01; Byte.x00; Byte.x00]; [Byte.x05] ] |}
    (Some {| ResumeType := ResumeUnknown; SessionID := [] |})
  = Ret {| Extra := [ [Byte.x05] ] |}.
Proof. reflexivity. Qed.

(** A field of an unknown id before the known one is stepped over. *)
Example two_fields_scenario :
  unmarshalSessionExtra
    (container_bytes SessionExtraVersion 2
       (fields_bytes
          [ {| ID := 0x7002; Version := SessionExtraVersion;
               Data := [Byte.xff] |};
            {| ID := SessionExtraUTLSData; Version := SessionExtraVersion;
               Data := [Byte.x01; Byte.x00; Byte.x01; Byte.x2a] |} ]))
  = Ret (Some {| ResumeType := ResumeSessionID; SessionID := [Byte.x2a] |},
         None).
Proof. reflexivity. Qed.

(** The payload errors reach the caller of the container decoder. *)
Example payload_error_scenario :
  unmarshalSessionExtra
    (container_bytes SessionExtraVersion 1
       (fields_bytes
          [ {| ID := SessionExtraUTLSData; Version := SessionExtraVersion;
               Data := [Byte.x01; Byte.x00] |} ]))
  = Ret (None, Some (errors_New "invalid UTLS session data: too short")).
Proof. reflexivity. Qed.

(* ===================================================================== *)
(** * More on the codec                                                   *)
(* ===================================================================== *)

Lemma nothing_to_encode_spec (data : option UTLSSessionData) :
  nothing_to_encode data = true
  <-> data = None
      \/ exists d, data = Some d /\ ResumeType d = ResumeUnknown
                   /\ SessionID d = [].
Proof.
  destruct data as [d|]; cbn [nothing_to_encode]; [|split; auto].
  rewrite andb_true_iff, bool_decide_eq_true, Z.eqb_eq. split.
  - intros [Ht Hl]. right. exists d. auto using len_zero_nil.
  - intros [[=] | (d' & [= <-] & Ht & Hs)]. rewrite Hs. auto.
Qed.

(** X1. Emptiness: each encoder returns nil exactly for a nil pointer and
    for the value whose type is [ResumeUnknown] and whose identifier is
    empty; for every other value the payload has 3 bytes more than the
    identifier and the container 11 bytes more, whatever the length of the
    identifier. *)
Theorem encoders_nil_iff_empty (data : option UTLSSessionData) :
  (marshalUTLSSessionData data = Ret None
   <-> data = None
       \/ exists d, data = Some d /\ ResumeType d = ResumeUnknown
                    /\ SessionID d = [])
  /\ (marshalSessionExtra data = Ret None
      <-> marshalUTLSSessionData data = Ret None)
  /\ forall d, data = Some d ->
       marshalUTLSSessionData data <> Ret None ->
       exists payload extraData,
         marshalUTLSSessionData data = Ret (Some payload)
         /\ marshalSessionExtra data = Ret (Some extraData)
         /\ len payload = 3 + len (SessionID d)
         /\ len extraData = 11 + len (SessionID d).
Proof.
  rewrite <- nothing_to_encode_spec.
  destruct (nothing_to_encode data) eqn:He.
  - rewrite marshalUTLSSessionData_nil, marshalSessionExtra_nil by done.
    split; [tauto|]. split; [tauto|]. intros d _ H. destruct H. reflexivity.
  - destruct data as [d|]; [|discriminate].
    pose proof (marshalSessionExtra_bytes d He) as Hw. cbv zeta in Hw.
    rewrite marshalUTLSSessionData_bytes, Hw by done.
    split; [split; [discriminate|congruence]|].
    split; [split; discriminate|].
    intros d' [= <-] _. eexists. eexists.
    split; [reflexivity|]. split; [reflexivity|].
    split; unfold len, be16; cbn [app length]; lia.
Qed.

Lemma uint16_small (x : Z) : 0 <= x < 65536 -> uint16 x = x.
Proof. intros H. unfold uint16. apply Z.mod_small, H. Qed.

(** Decoding the bytes the payload encoder lays out. *)
Lemma unmarshalUTLSSessionData_layout (v : UTLSSessionData) :
  len (SessionID v) <= 65535 ->
  unmarshalUTLSSessionData
    (ResumeType v :: be16 (uint16 (len (SessionID v))) ++ SessionID v)
  = Ret (Some v, None).
Proof.
  intros Hlen. pose proof (len_nonneg (SessionID v)).
  cbn [be16 app]. rewrite unmarshalUTLSSessionData_cons. cbv zeta.
  rewrite uint16_small, be16_value by lia.
  rewrite Z.gtb_ltb, Z.ltb_irrefl.
  rewrite take_ge by (unfold len; lia). destruct v; reflexivity.
Qed.

(** The container of a value that is not logically empty decodes as the
    first [uint16(len(payload))] bytes of its payload do. *)
Lemma unmarshal_marshalSessionExtra (d : UTLSSessionData) :
  nothing_to_encode (Some d) = false ->
  let payload : list byte :=
    ResumeType d :: be16 (uint16 (len (SessionID d))) ++ SessionID d in
  exists extraData,
    marshalSessionExtra (Some d) = Ret (Some extraData)
    /\ unmarshalSessionExtra extraData
       = unmarshalUTLSSessionData
           (take (Z.to_nat (uint16 (len payload))) payload).
Proof.
  intros Hne payload. pose proof (marshalSessionExtra_bytes d Hne) as Hw.
  cbv zeta in Hw. fold payload in Hw. eexists. split; [exact Hw|].
  pose proof (len_nonneg payload) as Hp.
  assert (0 <= uint16 (len payload) < 65536) as Hk
    by (apply Z.mod_pos_bound; lia).
  assert (uint16 (len payload) <= len payload) as Hle
    by (apply Z.mod_le; lia).
  cbn [be16 app]. rewrite unmarshalSessionExtra_version.
  rewrite be16_value by lia. change (Z.to_nat 1) with 1%nat.
  change 3 with (len [SessionExtraVersion; uint8 (Z.shiftr 1 8); uint8 1]).
  change (SessionExtraVersion :: uint8 (Z.shiftr 1 8) :: uint8 1 :: ?l)
    with ([SessionExtraVersion; uint8 (Z.shiftr 1 8); uint8 1] ++ l).
  rewrite readFields_header. cbv zeta.
  rewrite !be16_value by (done || (unfold uint16; vm_compute; done)).
  rewrite Z.gtb_ltb.
  destruct (Z.ltb_spec (len payload) (uint16 (len payload))); [lia|].
  reflexivity.
Qed.

(** X2. The wire format of the container encoder: for every value that is
    not logically empty and whose identifier has at most 65532 bytes, the
    container is the version byte, a count of one and the single field of
    id 0x7001 and version 0x01 whose data is the encoded payload. *)
Theorem marshalSessionExtra_wire (d : UTLSSessionData) :
  nothing_to_encode (Some d) = false ->
  len (SessionID d) <= 65532 ->
  exists payload,
    marshalUTLSSessionData (Some d) = Ret (Some payload)
    /\ marshalSessionExtra (Some d)
       = Ret (Some (container_bytes SessionExtraVersion 1
                      (fields_bytes
                         [ {| ID := SessionExtraUTLSData;
                              Version := SessionExtraVersion;
                              Data := payload |} ]))).
Proof.
  intros Hne Hlen. pose proof (len_nonneg (SessionID d)).
  eexists. split; [apply marshalUTLSSessionData_bytes, Hne|].
  pose proof (marshalSessionExtra_bytes d Hne) as Hw. cbv zeta in Hw.
  rewrite Hw. unfold container_bytes, fields_bytes, field_bytes.
  cbn [ID Version Data]. rewrite app_nil_r.
  rewrite (uint16_small SessionExtraUTLSData)
    by (unfold SessionExtraUTLSData; lia).
  set (payload := ResumeType d :: _).
  rewrite (uint16_small (@len byte payload))
    by (unfold payload, len, be16 in *; cbn [app length]; lia).
  reflexivity.
Qed.

Lemma marshalSessionExtra_wire_witness :
  exists payload,
    marshalUTLSSessionData
      (Some {| ResumeType := ResumeUnknown; SessionID := [Byte.x2a] |})
    = Ret (Some payload)
    /\ marshalSessionExtra
         (Some {| ResumeType := ResumeUnknown; SessionID := [Byte.x2a] |})
       = Ret (Some (container_bytes SessionExtraVersion 1
                      (fields_bytes
                         [ {| ID := SessionExtraUTLSData;
                              Version := SessionExtraVersion;
                              Data := payload |} ]))).
Proof.
  apply (marshalSessionExtra_wire
           {| ResumeType := ResumeUnknown; SessionID := [Byte.x2a] |}).
  - reflexivity.
  - vm_compute. discriminate.
Defined.

(** X3. Round trip of the container codec: for every value that is not
    logically empty and whose identifier has at most 65532 bytes, decoding
    the container the encoder produced gives the value back, without
    error. *)
Theorem container_round_trip (v : UTLSSessionData) :
  nothing_to_encode (Some v) = false ->
  len (SessionID v) <= 65532 ->
  unmarshal_marshal v = Ret (Some v, None).
Proof.
  intros Hne Hlen. pose proof (len_nonneg (SessionID v)).
  destruct (unmarshal_marshalSessionExtra v Hne) as (w & Hw & Hdec).
  unfold unmarshal_marshal. rewrite Hw. go_step.
  change (default [] (Some w)) with w.
  rewrite Hdec.
  rewrite uint16_small by (unfold len, be16 in *; cbn [app length]; lia).
  rewrite take_ge by (unfold len; lia).
  apply unmarshalUTLSSessionData_layout. lia.
Qed.

Lemma container_round_trip_witness :
  unmarshal_marshal {| ResumeType := ResumeUnknown; SessionID := [Byte.x2a] |}
  = Ret (Some {| ResumeType := ResumeUnknown; SessionID := [Byte.x2a] |},
         None).
Proof.
  apply (container_round_trip
           {| ResumeType := ResumeUnknown; SessionID := [Byte.x2a] |}).
  - reflexivity.
  - vm_compute. discriminate.
Defined.

(** X4. The 16-bit data length of the field wraps: for an identifier of
    65533 to 65535 bytes, which the payload format carries (the payload
    codec gives the value back), the payload has more than 65535 bytes, the
    container declares its length modulo 65536, and decoding the container
    hands fewer than 3 bytes to the payload decoder: the result is the
    error "too short" and no value. *)
Theorem container_length_wraps (v : UTLSSessionData) :
  65533 <= len (SessionID v) <= 65535 ->
  decode_encode v = Ret (Some v, None)
  /\ unmarshal_marshal v
     = Ret (None, Some (errors_New "invalid UTLS session data: too short")).
Proof.
  intros Hlen.
  assert (nothing_to_encode (Some v) = false) as Hne.
  { cbn [nothing_to_encode]. destruct (Z.eqb_spec (len (SessionID v)) 0);
      [lia | apply andb_false_r]. }
  split.
  - unfold decode_encode. rewrite marshalUTLSSessionData_bytes by done.
    go_step. apply unmarshalUTLSSessionData_layout. lia.
  - destruct (unmarshal_marshalSessionExtra v Hne) as (w & Hw & Hdec).
    unfold unmarshal_marshal. rewrite Hw. go_step.
    change (default [] (Some w)) with w.
    rewrite Hdec. apply unmarshalUTLSSessionData_short.
    set (payload := ResumeType v :: _) in *.
    assert (@len byte payload = 3 + len (SessionID v)) as Hp.
    { unfold payload, len, be16, ResumeMechanism. cbn [app length]. lia. }
    rewrite Hp. unfold uint16.
    replace ((3 + len (SessionID v)) mod 65536)
      with (len (SessionID v) - 65533)
      by (apply Z.mod_unique with 1; lia).
    len_simpl. lia.
Qed.

Lemma container_length_wraps_witness :
  decode_encode {| ResumeType := ResumeSessionID;
                   SessionID := replicate (Z.to_nat 65533) Byte.x00 |}
  = Ret (Some {| ResumeType := ResumeSessionID;
                 SessionID := replicate (Z.to_nat 65533) Byte.x00 |}, None)
  /\ unmarshal_marshal {| ResumeType := ResumeSessionID;
                          SessionID := replicate (Z.to_nat 65533) Byte.x00 |}
     = Ret (None, Some (errors_New "invalid UTLS session data: too short")).
Proof.
  apply (container_length_wraps
           {| ResumeType := ResumeSessionID;
              SessionID := replicate (Z.to_nat 65533) Byte.x00 |}).
  cbn [SessionID]. unfold len. rewrite length_replicate. lia.
Defined.

(** X5. The payload decoder reads no further than the declared length:
    where it decodes a buffer to a value, it decodes that buffer followed by
    any other bytes to the same value. *)
Theorem payload_decoder_ignores_trailing (data junk : list byte)
    (v : UTLSSessionData) :
  unmarshalUTLSSessionData data = Ret (Some v, None) ->
  unmarshalUTLSSessionData (data ++ junk) = Ret (Some v, None).
Proof.
  intros Hdec.
  destruct data as [|rt [|b0 [|b1 rest]]]; try discriminate Hdec.
  cbn [app]. rewrite unmarshalUTLSSessionData_cons in *. cbv zeta in *.
  pose proof (byte_to_Z_range b0). pose proof (byte_to_Z_range b1).
  pose proof (len_nonneg junk).
  set (n := byte_to_Z b0 * 256 + byte_to_Z b1) in *.
  rewrite len_app.
  destruct (Z.gtb_spec n (len rest)); [discriminate Hdec|].
  destruct (Z.gtb_spec n (len rest + len junk)); [lia|].
  rewrite take_app_le by (unfold len in *; lia). exact Hdec.
Qed.

Lemma payload_decoder_ignores_trailing_witness :
  unmarshalUTLSSessionData
    ([Byte.x02; Byte.x00; Byte.x01; Byte.x2a] ++ [Byte.xff; Byte.xfe])
  = Ret (Some {| ResumeType := ResumeSessionTicket;
                 SessionID := [Byte.x2a] |}, None).
Proof.
  apply (payload_decoder_ignores_trailing
           [Byte.x02; Byte.x00; Byte.x01; Byte.x2a] [Byte.xff; Byte.xfe]).
  reflexivity.
Defined.

Lemma uint8_mod (x : Z) : uint8 (x mod 256) = uint8 x.
Proof. unfold uint8. rewrite Z.mod_mod by lia. reflexivity. Qed.

(** The two bytes of the value two bytes make up are those bytes. *)
Lemma be16_of_bytes (b0 b1 : byte) :
  be16 (byte_to_Z b0 * 256 + byte_to_Z b1) = [b0; b1].
Proof.
  pose proof (byte_to_Z_range b0). pose proof (byte_to_Z_range b1).
  unfold be16. rewrite Z.shiftr_div_pow2 by lia. change (2 ^ 8) with 256.
  rewrite Z.div_add_l, (Z.div_small (byte_to_Z b1)), Z.add_0_r by lia.
  rewrite uint8_byte_to_Z, <- uint8_mod.
  rewrite Z.add_comm, Z.mod_add, Z.mod_small by lia.
  rewrite uint8_byte_to_Z. reflexivity.
Qed.

(** X6. Encoding what was decoded: where the payload decoder returns a
    value that is not logically empty, the payload encoder gives back for
    that value exactly the bytes that were read, the first
    3 + declared-length bytes of the buffer. *)
Theorem payload_reencode (data : list byte) (v : UTLSSessionData) :
  unmarshalUTLSSessionData data = Ret (Some v, None) ->
  nothing_to_encode (Some v) = false ->
  marshalUTLSSessionData (Some v)
  = Ret (Some (take (Z.to_nat (3 + declared_length data)) data)).
Proof.
  intros Hdec Hne.
  destruct data as [|rt [|b0 [|b1 rest]]]; try discriminate Hdec.
  rewrite unmarshalUTLSSessionData_cons in Hdec. cbv zeta in Hdec.
  cbn [declared_length].
  pose proof (byte_to_Z_range b0). pose proof (byte_to_Z_range b1).
  set (n := byte_to_Z b0 * 256 + byte_to_Z b1) in *.
  destruct (Z.gtb_spec n (len rest)); [discriminate Hdec|].
  injection Hdec as <-.
  rewrite marshalUTLSSessionData_bytes by done. cbn [ResumeType SessionID].
  replace (len (take (Z.to_nat n) rest)) with n by (len_simpl; lia).
  rewrite uint16_small by lia. unfold n at 1. rewrite be16_of_bytes.
  replace (Z.to_nat (3 + n)) with (S (S (S (Z.to_nat n)))) by lia.
  reflexivity.
Qed.

Lemma payload_reencode_witness :
  marshalUTLSSessionData
    (Some {| ResumeType := ResumeSessionTicket; SessionID := [Byte.x2a] |})
  = Ret (Some (take (Z.to_nat
                       (3 + declared_length
                              [Byte.x02; Byte.x00; Byte.x01; Byte.x2a;
                               Byte.xff]))
                 [Byte.x02; Byte.x00; Byte.x01; Byte.x2a; Byte.xff])).
Proof.
  apply (payload_reencode
           [Byte.x02; Byte.x00; Byte.x01; Byte.x2a; Byte.xff]
           {| ResumeType := ResumeSessionTicket; SessionID := [Byte.x2a] |});
    reflexivity.
Defined.

(** X7. The known field is found behind unknown ones: in a container of
    version 0x01 whose first fields are complete and unrecognized and are
    followed by a complete field of id 0x7001 and version 0x01, announced
    by the count, the decoder returns what the payload decoder makes of the
    data of that field, value or error, whatever bytes follow. *)
Theorem known_field_behind_unknown (fs : list SessionExtraField)
    (f : SessionExtraField) (count : Z) (rest : list byte) :
  Forall field_fits fs ->
  Forall (fun f => recognized f = false) fs ->
  field_fits f -> recognized f = true ->
  len fs < count < 65536 ->
  unmarshalSessionExtra
    (container_bytes SessionExtraVersion count
       (fields_bytes fs ++ field_bytes f ++ rest))
  = unmarshalUTLSSessionData (Data f).
Proof.
  intros Hfit Hun Hf Hrec Hcount. pose proof (len_nonneg fs).
  rewrite unmarshalSessionExtra_container by lia. unfold container_bytes.
  change (SessionExtraVersion :: be16 count ++ ?l)
    with ((SessionExtraVersion :: be16 count) ++ l).
  change 3 with (len (SessionExtraVersion :: be16 count)).
  replace (Z.to_nat count)
    with (length fs + S (Z.to_nat count - length fs - 1))%nat
    by (unfold len in *; lia).
  rewrite readFields_skip by (done || lia).
  rewrite <- len_app, (app_assoc _ (fields_bytes fs)).
  rewrite readFields_field, Hrec by done. reflexivity.
Qed.

Lemma known_field_behind_unknown_witness :
  unmarshalSessionExtra
    (container_bytes SessionExtraVersion 2
       (fields_bytes
          [ {| ID := 0x7002; Version := Byte.x01; Data := [Byte.xff] |} ]
        ++ field_bytes {| ID := 0x7001; Version := Byte.x01;
                          Data := [Byte.x01; Byte.x00; Byte.x00] |}
        ++ [Byte.x07]))
  = unmarshalUTLSSessionData [Byte.x01; Byte.x00; Byte.x00].
Proof.
  apply (known_field_behind_unknown
           [ {| ID := 0x7002; Version := Byte.x01; Data := [Byte.xff] |} ]
           {| ID := 0x7001; Version := Byte.x01;
              Data := [Byte.x01; Byte.x00; Byte.x00] |} 2 [Byte.x07]).
  - repeat constructor; cbn; lia.
  - repeat constructor.
  - split; [cbn; lia | vm_compute; reflexivity].
  - reflexivity.
  - vm_compute. split; reflexivity.
Defined.

(** X8. The decoder reads the announced number of fields and no more: a
    container of version 0x01 whose announced fields are complete and
    unrecognized decodes to (nil, nil) whatever bytes follow them, be it a
    well-formed known field. *)
Theorem bytes_behind_the_fields_are_ignored (fs : list SessionExtraField)
    (junk : list byte) :
  Forall field_fits fs ->
  Forall (fun f => recognized f = false) fs ->
  len fs < 65536 ->
  unmarshalSessionExtra
    (container_bytes SessionExtraVersion (len fs) (fields_bytes fs ++ junk))
  = Ret (None, None).
Proof.
  intros Hfit Hun Hlen. pose proof (len_nonneg fs).
  rewrite unmarshalSessionExtra_container by lia. unfold container_bytes.
  change (SessionExtraVersion :: be16 (len fs) ++ ?l)
    with ((SessionExtraVersion :: be16 (len fs)) ++ l).
  change 3 with (len (SessionExtraVersion :: be16 (len fs))).
  replace (Z.to_nat (len fs)) with (length fs + 0)%nat by (unfold len; lia).
  rewrite readFields_skip by (done || lia). reflexivity.
Qed.

Lemma bytes_behind_the_fields_are_ignored_witness :
  unmarshalSessionExtra
    (container_bytes SessionExtraVersion
       (len [ {| ID := 0x7002; Version := Byte.x01; Data := [Byte.xff] |} ])
       (fields_bytes
          [ {| ID := 0x7002; Version := Byte.x01; Data := [Byte.xff] |} ]
        ++ field_bytes {| ID := 0x7001; Version := Byte.x01;
                          Data := [Byte.x01; Byte.x00; Byte.x00] |}))
  = Ret (None, None).
Proof.
  apply (bytes_behind_the_fields_are_ignored
           [ {| ID := 0x7002; Version := Byte.x01; Data := [Byte.xff] |} ]
           (field_bytes {| ID := 0x7001; Version := Byte.x01;
                           Data := [Byte.x01; Byte.x00; Byte.x00] |})).
  - repeat constructor; cbn; lia.
  - repeat constructor.
  - vm_compute. reflexivity.
Defined.

(* ===================================================================== *)
(** * More on the slots of a session state                                *)
(* ===================================================================== *)

(** The loop of [GetSessionExtraFields] passes over foreign slots and over
    slots of the codec that fail to decode. *)
Lemma GetSessionExtraFields_range_skip (pre rest : list (list byte)) :
  Forall (fun extraItem =>
            codec_owned extraItem = true ->
            exists utlsData e,
              unmarshalSessionExtra extraItem = Ret (utlsData, Some e)) pre ->
  GetSessionExtraFields_range (pre ++ rest)
  = GetSessionExtraFields_range rest.
Proof.
  induction 1 as [|extraItem pre Hx _ IH]; [reflexivity|].
  cbn [app GetSessionExtraFields_range]. rewrite starts_with_version_owned.
  go_step. destruct (codec_owned extraItem); [|exact IH].
  destruct (Hx eq_refl) as (utlsData & e & ->). go_step. exact IH.
Qed.

Lemma foreign_slots_not_owned (extra : list (list byte)) :
  Forall (fun extraItem => codec_owned extraItem = false)
    (foreign_slots extra).
Proof.
  apply Forall_forall. intros x Hx. unfold foreign_slots in Hx.
  apply list_elem_of_filter in Hx. tauto.
Qed.

Lemma owned_slots_elem (extra : list (list byte)) :
  owned_slots extra <> []
  <-> exists extraItem, extraItem ∈ extra /\ codec_owned extraItem = true.
Proof.
  unfold owned_slots. split.
  - intros Hne. destruct (filter _ extra) as [|x l] eqn:E; [done|].
    assert (x ∈ filter (fun extraItem => codec_owned extraItem = true) extra)
      as Hx by (rewrite E; left).
    apply list_elem_of_filter in Hx. exists x. tauto.
  - intros (x & Hin & Ho) E.
    assert (x ∈ filter (fun extraItem => codec_owned extraItem = true) extra)
      as Hx by (apply list_elem_of_filter; auto).
    rewrite E in Hx. inversion Hx.
Qed.

(** The container of a value decodes to that value and is a slot of the
    codec. *)
Lemma marshalSessionExtra_decodes (v : UTLSSessionData) :
  nothing_to_encode (Some v) = false ->
  len (SessionID v) <= 65532 ->
  exists extraData,
    marshalSessionExtra (Some v) = Ret (Some extraData)
    /\ codec_owned extraData = true
    /\ unmarshalSessionExtra extraData = Ret (Some v, None).
Proof.
  intros Hne Hlen. pose proof (len_nonneg (SessionID v)).
  destruct (unmarshal_marshalSessionExtra v Hne) as (w & Hw & Hdec).
  exists w. split; [exact Hw|]. split.
  - pose proof (marshalSessionExtra_bytes v Hne) as Hb. cbv zeta in Hb.
    rewrite Hb in Hw. injection Hw as <-. reflexivity.
  - rewrite Hdec.
    rewrite uint16_small
      by (unfold len, be16, ResumeMechanism in *; cbn [app length]; lia).
    rewrite take_ge by (unfold len; lia).
    apply unmarshalUTLSSessionData_layout. lia.
Qed.

(** X9. Set then get: for every session state, whatever its slots, and
    every value that is not logically empty and whose identifier has at
    most 65532 bytes, [GetSessionExtraFields] after [SetSessionExtraFields]
    returns that value, and [HasSessionExtra] returns true. *)
Theorem set_get_round_trip (s : SessionState) (v : UTLSSessionData) :
  nothing_to_encode (Some v) = false ->
  len (SessionID v) <= 65532 ->
  set_then_get s (Some v) = Ret (Some v)
  /\ (s' ← SetSessionExtraFields s (Some v); HasSessionExtra s') = Ret true.
Proof.
  intros Hne Hlen.
  destruct (marshalSessionExtra_decodes v Hne Hlen) as (w & Hw & Ho & Hdec).
  destruct (SetSessionExtraFields_slots s (Some v)) as (encoded & Hm & Hset).
  rewrite Hw in Hm. injection Hm as <-.
  assert (owned_slots (foreign_slots (Extra s) ++ [w]) <> []) as Howned.
  { apply owned_slots_elem. exists w. split; [|exact Ho].
    apply elem_of_app. right. left. }
  unfold set_then_get. rewrite Hset. go_step. split.
  - unfold GetSessionExtraFields. rewrite HasSessionExtra_owned. go_step.
    cbn [Extra]. rewrite bool_decide_eq_true_2 by exact Howned. cbn [negb].
    rewrite GetSessionExtraFields_range_skip.
    + cbn [GetSessionExtraFields_range].
      rewrite starts_with_version_owned, Ho. go_step.
      rewrite Hdec. reflexivity.
    + eapply Forall_impl; [apply foreign_slots_not_owned|].
      cbn. intros x Hx Hy. congruence.
  - rewrite HasSessionExtra_owned. cbn [Extra].
    rewrite bool_decide_eq_true_2 by exact Howned. reflexivity.
Qed.

Lemma set_get_round_trip_witness :
  set_then_get
    {| Extra := [ [Byte.x01]; [Byte.x05]; [Byte.x01; Byte.x00; Byte.x00] ] |}
    (Some {| ResumeType := ResumeSessionID; SessionID := [Byte.x2a] |})
  = Ret (Some {| ResumeType := ResumeSessionID; SessionID := [Byte.x2a] |})
  /\ (s' ← SetSessionExtraFields
             {| Extra := [ [Byte.x01]; [Byte.x05];
                           [Byte.x01; Byte.x00; Byte.x00] ] |}
             (Some {| ResumeType := ResumeSessionID;
                      SessionID := [Byte.x2a] |});
      HasSessionExtra s') = Ret true.
Proof.
  apply (set_get_round_trip
           {| Extra := [ [Byte.x01]; [Byte.x05];
                         [Byte.x01; Byte.x00; Byte.x00] ] |}
           {| ResumeType := ResumeSessionID; SessionID := [Byte.x2a] |}).
  - reflexivity.
  - vm_compute. discriminate.
Defined.

(** X10. After a clear nothing of the codec is left to find: for every
    session state, [HasSessionExtra] returns false and
    [GetSessionExtraFields] returns nil on the state
    [ClearSessionExtraFields] leaves; and setting a nil pointer or the
    logically empty value is that clear. *)
Theorem clear_leaves_nothing (s : SessionState)
    (data : option UTLSSessionData) :
  (s' ← ClearSessionExtraFields s; HasSessionExtra s') = Ret false
  /\ (s' ← ClearSessionExtraFields s; GetSessionExtraFields s') = Ret None
  /\ (marshalUTLSSessionData data = Ret None ->
      SetSessionExtraFields s data = ClearSessionExtraFields s).
Proof.
  rewrite ClearSessionExtraFields_foreign. go_step.
  assert (HasSessionExtra {| Extra := foreign_slots (Extra s) |} = Ret false)
    as Hhas.
  { rewrite HasSessionExtra_owned. cbn [Extra].
    rewrite owned_slots_foreign. reflexivity. }
  split; [exact Hhas|]. split.
  - unfold GetSessionExtraFields. rewrite Hhas. reflexivity.
  - intros Hnil. unfold SetSessionExtraFields.
    destruct (nothing_to_encode data) eqn:He.
    + rewrite marshalSessionExtra_nil by done. go_step.
      apply ClearSessionExtraFields_foreign.
    + destruct data as [d|]; [|discriminate].
      rewrite marshalUTLSSessionData_bytes in Hnil by done. discriminate.
Qed.

(** X11. The last set wins: for every session state and any two values,
    setting the first and then the second leaves the state that setting the
    second alone leaves; in particular setting the same value twice is
    setting it once. *)
Theorem set_overrides (s : SessionState) (d1 d2 : option UTLSSessionData) :
  (s1 ← SetSessionExtraFields s d1; SetSessionExtraFields s1 d2)
  = SetSessionExtraFields s d2.
Proof.
  destruct (SetSessionExtraFields_slots s d1) as (e1 & Hm1 & ->). go_step.
  destruct (SetSessionExtraFields_slots s d2) as (e2 & Hm2 & ->).
  destruct (SetSessionExtraFields_slots
              {| Extra := foreign_slots (Extra s)
                          ++ match e1 with Some x => [x] | None => [] end |}
              d2) as (e2' & Hm2' & ->).
  rewrite Hm2 in Hm2'. injection Hm2' as <-. cbn [Extra].
  rewrite foreign_slots_app, foreign_slots_idemp.
  assert (foreign_slots match e1 with Some x => [x] | None => [] end = [])
    as ->; [|rewrite app_nil_r; reflexivity].
  destruct (marshalSessionExtra_owned d1) as [E | (x & E & Hx)];
    rewrite E in Hm1; injection Hm1 as <-; [reflexivity|].
  unfold foreign_slots. rewrite filter_cons, decide_False; [reflexivity|].
  rewrite Hx. discriminate.
Qed.

(** X12. [GetSessionExtraFields] returns what the first slot of the codec
    that decodes without error decodes to: slots before it that are foreign
    or fail to decode are passed over, and the slots behind it are not
    looked at; so a slot of the codec that holds no known field, decoding
    to (nil, nil), makes the result nil even when a later slot holds a
    value. *)
Theorem get_returns_first_decodable (pre post : list (list byte))
    (extraItem : list byte) (utlsData : option UTLSSessionData) :
  Forall (fun x =>
            codec_owned x = true ->
            exists u e, unmarshalSessionExtra x = Ret (u, Some e)) pre ->
  codec_owned extraItem = true ->
  unmarshalSessionExtra extraItem = Ret (utlsData, None) ->
  GetSessionExtraFields {| Extra := pre ++ extraItem :: post |}
  = Ret utlsData.
Proof.
  intros Hpre Ho Hdec. unfold GetSessionExtraFields.
  rewrite HasSessionExtra_owned. go_step. cbn [Extra].
  rewrite bool_decide_eq_true_2.
  - cbn [negb]. rewrite GetSessionExtraFields_range_skip by exact Hpre.
    cbn [GetSessionExtraFields_range].
    rewrite starts_with_version_owned, Ho. go_step.
    rewrite Hdec. reflexivity.
  - apply owned_slots_elem. exists extraItem. split; [|exact Ho].
    apply elem_of_app. right. left.
Qed.

Lemma get_returns_first_decodable_witness :
  GetSessionExtraFields
    {| Extra := [ [Byte.x05]; [Byte.x01] ]
                ++ [Byte.x01; Byte.x00; Byte.x00]
                :: [ [Byte.x01; Byte.x00; Byte.x01; Byte.x70; Byte.x01;
                      Byte.x01; Byte.x00; Byte.x03; Byte.x01; Byte.x00;
                      Byte.x00] ] |}
  = Ret None.
Proof.
  apply (get_returns_first_decodable
           [ [Byte.x05]; [Byte.x01] ]
           [ [Byte.x01; Byte.x00; Byte.x01; Byte.x70; Byte.x01; Byte.x01;
              Byte.x00; Byte.x03; Byte.x01; Byte.x00; Byte.x00] ]
           [Byte.x01; Byte.x00; Byte.x00] None).
  - repeat constructor; [discriminate|].
    intros _. eexists. eexists. reflexivity.
  - reflexivity.
  - reflexivity.
Defined.

(** The loop of [GetSessionExtraFields] always returns, and a value it
    returns is what some slot of the codec decodes to. *)
Lemma GetSessionExtraFields_range_sound (items : list (list byte)) :
  exists r,
    GetSessionExtraFields_range items = Ret r
    /\ forall v, r = Some v ->
         exists extraItem,
           extraItem ∈ items /\ codec_owned extraItem = true
           /\ unmarshalSessionExtra extraItem = Ret (Some v, None).
Proof.
  induction items as [|x items (r & IH & Hr)].
  - exists None. split; [reflexivity | discriminate].
  - cbn [GetSessionExtraFields_range]. rewrite starts_with_version_owned.
    go_step.
    assert (forall v, r = Some v ->
              exists extraItem,
                extraItem ∈ x :: items /\ codec_owned extraItem = true
                /\ unmarshalSessionExtra extraItem = Ret (Some v, None))
      as Hr'.
    { intros v Hv. destruct (Hr v Hv) as (y & Hy & H). exists y.
      split; [right; exact Hy | exact H]. }
    destruct (codec_owned x) eqn:Ho; [|eauto].
    destruct (unmarshalSessionExtra_total x) as ([u [e|]] & Hx);
      rewrite Hx; go_step; [eauto|].
    exists u. split; [reflexivity|]. intros v ->. exists x.
    split; [left | auto].
Qed.

(** X13. The four operations on a session state return on every state, no
    slot makes them index out of range; [HasSessionExtra] returns true
    exactly when some slot begins with the version byte 0x01; and a value
    [GetSessionExtraFields] returns is what a slot beginning with 0x01
    decodes to without error. *)
Theorem session_extra_is_safe (s : SessionState)
    (data : option UTLSSessionData) :
  exists has got s_clear s_set,
    HasSessionExtra s = Ret has
    /\ GetSessionExtraFields s = Ret got
    /\ ClearSessionExtraFields s = Ret s_clear
    /\ SetSessionExtraFields s data = Ret s_set
    /\ (has = true
        <-> exists extraItem,
              extraItem ∈ Extra s /\ codec_owned extraItem = true)
    /\ forall v, got = Some v ->
         exists extraItem,
           extraItem ∈ Extra s /\ codec_owned extraItem = true
           /\ unmarshalSessionExtra extraItem = Ret (Some v, None).
Proof.
  destruct (SetSessionExtraFields_slots s data) as (encoded & _ & Hset).
  destruct (GetSessionExtraFields_range_sound (Extra s)) as (r & Hr & Hsound).
  unfold GetSessionExtraFields.
  rewrite HasSessionExtra_owned, ClearSessionExtraFields_foreign, Hset.
  go_step.
  destruct (bool_decide (owned_slots (Extra s) <> [])) eqn:Hb; cbn [negb].
  - rewrite Hr. do 4 eexists. do 4 (split; [reflexivity|]).
    split; [|exact Hsound].
    apply bool_decide_eq_true in Hb. apply owned_slots_elem in Hb. tauto.
  - do 4 eexists. do 4 (split; [reflexivity|]).
    split; [|discriminate].
    apply bool_decide_eq_false in Hb. rewrite <- owned_slots_elem.
    split; [discriminate | tauto].
Qed.

(* ===================================================================== *)
(** * More on the pool of ECDHE keys                                      *)
(* ===================================================================== *)

Section MoreKeyPoolProperties.
Context `{env : KeyPoolEnv}.

Lemma generated_length (curve : Curve) (n : nat) :
  forall r, length (generated curve n r).1 = n.
Proof.
  induction n as [|n IH]; intros r; [reflexivity|].
  cbn [generated]. destruct (GenerateKey curve r) as [[key err] r1].
  specialize (IH r1). destruct (generated curve n r1) as [ks r2].
  cbn in *. rewrite IH. reflexivity.
Qed.

Lemma generated_reliable (curve : Curve) (n : nat) :
  (forall r, exists k r', GenerateKey curve r = (Some k, None, r')) ->
  forall r, Forall (fun key => key <> None) (generated curve n r).1.
Proof.
  intros Hgen. induction n as [|n IH]; intros r; [constructor|].
  cbn [generated]. destruct (Hgen r) as (k & r1 & ->).
  specialize (IH r1). destruct (generated curve n r1) as [ks r2].
  cbn in *. constructor; [discriminate | exact IH].
Qed.

(** The filling loop, started behind the slots [filled], writes the
    generated keys into the slots that follow. *)
Lemma init_loop_generated (curve : Curve) (remaining : nat) :
  forall (filled : list (option PrivateKey)) (r : Reader),
    init_loop curve remaining (len filled)
      (filled ++ replicate remaining None) r
    = Ret (filled ++ (generated curve remaining r).1,
           (generated curve remaining r).2).
Proof.
  induction remaining as [|remaining IH]; intros filled r.
  - reflexivity.
  - cbn [init_loop generated replicate].
    destruct (GenerateKey curve r) as [[key err] r1].
    pose proof (len_nonneg filled) as Hf.
    destruct err as [e|].
    + replace (filled ++ None :: replicate remaining None)
        with ((filled ++ [None]) ++ replicate remaining None)
        by (rewrite <- app_assoc; reflexivity).
      replace (len filled + 1) with (len (filled ++ [None]))
        by (rewrite len_app; reflexivity).
      rewrite IH.
      destruct (generated curve remaining r1) as [ks r2]. cbn [fst snd].
      rewrite <- app_assoc. reflexivity.
    + rewrite set_index_Ret by (len_simpl; lia). go_step.
      replace (Z.to_nat (len filled)) with (length filled + 0)%nat
        by (unfold len; lia).
      rewrite insert_app_r. cbn [insert list_insert].
      replace (filled ++ key :: replicate remaining None)
        with ((filled ++ [key]) ++ replicate remaining None)
        by (rewrite <- app_assoc; reflexivity).
      replace (len filled + 1) with (len (filled ++ [key]))
        by (rewrite len_app; reflexivity).
      rewrite IH.
      destruct (generated curve remaining r1) as [ks r2]. cbn [fst snd].
      rewrite <- app_assoc. reflexivity.
Qed.

(** [init] on a pool not yet initialized. *)
Lemma keyCache_init_fresh (kc : keyCache_ptr) (curve : Curve) (g : globals) :
  initialized (deref g kc) = false ->
  exists g',
    keyCache_init kc curve g = Ret g'
    /\ deref g' kc
       = {| keys := (generated curve (Z.to_nat keyCacheSize)
                       (cryptorand_Reader g)).1;
            initialized := true |}
    /\ cryptorand_Reader g'
       = (generated curve (Z.to_nat keyCacheSize) (cryptorand_Reader g)).2
    /\ mathrand_state g' = mathrand_state g
    /\ forall kc', kc' <> kc -> deref g' kc' = deref g kc'.
Proof.
  intros Hinit. unfold keyCache_init. rewrite Hinit.
  pose proof (init_loop_generated curve (Z.to_nat keyCacheSize) []
                (cryptorand_Reader g)) as Hloop.
  cbn [app] in Hloop. change (len []) with 0 in Hloop. rewrite Hloop.
  go_step. eexists. split; [reflexivity|].
  split; [rewrite !deref_assign; reflexivity|].
  split; [destruct kc; reflexivity|].
  split; [destruct kc; reflexivity|].
  intros kc' Hne. destruct kc, kc'; try done; reflexivity.
Qed.

(** X14. What [init] leaves in a pool not yet initialized: the pool is
    marked initialized and has exactly 100 slots, slot i holding the key of
    the i-th key generation on [crypto/rand.Reader], nil where that
    generation reported an error; the reader has been read 100 times and
    the other pools are as they were. *)
Theorem keyCache_init_fills (kc : keyCache_ptr) (curve : Curve)
    (g : globals) :
  initialized (deref g kc) = false ->
  exists g',
    keyCache_init kc curve g = Ret g'
    /\ initialized (deref g' kc) = true
    /\ len (keys (deref g' kc)) = 100
    /\ keys (deref g' kc)
       = (generated curve 100 (cryptorand_Reader g)).1
    /\ cryptorand_Reader g'
       = (generated curve 100 (cryptorand_Reader g)).2
    /\ forall kc', kc' <> kc -> deref g' kc' = deref g kc'.
Proof.
  intros Hinit.
  destruct (keyCache_init_fresh kc curve g Hinit)
    as (g' & E & Hd & Hr & _ & Hframe).
  change (Z.to_nat keyCacheSize) with 100%nat in *.
  exists g'. split; [exact E|]. rewrite Hd. cbn [keys initialized].
  split; [reflexivity|].
  split; [unfold len; rewrite generated_length; reflexivity|].
  split; [reflexivity|]. split; [exact Hr | exact Hframe].
Qed.

(** X15. A pool is filled once: [init] on an initialized pool changes
    nothing, whatever the curve, so that two [init] in a row are one, and
    two [InitAllKeyCaches] in a row are one. *)
Theorem pools_are_filled_once (kc : keyCache_ptr) (curve curve' : Curve)
    (g : globals) :
  (g1 ← keyCache_init kc curve g; keyCache_init kc curve' g1)
  = keyCache_init kc curve g
  /\ (g1 ← InitAllKeyCaches g; InitAllKeyCaches g1) = InitAllKeyCaches g.
Proof.
  assert (forall kc c g1, initialized (deref g1 kc) = true ->
            keyCache_init kc c g1 = Ret g1) as Hnoop.
  { intros kc0 c g1 H. unfold keyCache_init. rewrite H. reflexivity. }
  split.
  - destruct (keyCache_init_Ret kc curve g) as (g1 & -> & Hi). go_step.
    apply Hnoop, Hi.
  - destruct (InitAllKeyCaches_Ret g) as (g1 & -> & Hall). go_step.
    unfold InitAllKeyCaches.
    do 3 (rewrite Hnoop by apply Hall; go_step). apply Hnoop, Hall.
Qed.

(** [getRandomKey] changes the state of [math/rand/v2] only, and on an
    initialized pool with slots it returns the contents of a slot. *)
Lemma getRandomKey_slot (kc : keyCache_ptr) (g : globals) :
  exists key g',
    getRandomKey kc g = Ret (key, g')
    /\ (forall kc', deref g' kc' = deref g kc')
    /\ cryptorand_Reader g' = cryptorand_Reader g
    /\ (initialized (deref g kc) = true -> keys (deref g kc) <> [] ->
        key ∈ keys (deref g kc)).
Proof.
  unfold getRandomKey.
  destruct (initialized (deref g kc)) eqn:Hinit; cbn [negb orb].
  2: { exists None, g. split; [reflexivity|]. repeat split; discriminate. }
  destruct (Z.eqb_spec (len (keys (deref g kc))) 0) as [H0|Hn].
  { exists None, g. split; [reflexivity|]. repeat split.
    intros _ Hne. apply len_zero_nil in H0. contradiction. }
  pose proof (len_nonneg (keys (deref g kc))) as Hpos.
  unfold mathrand_IntN.
  destruct (Z.leb_spec (len (keys (deref g kc))) 0); [lia|].
  destruct (mathrand_draw (mathrand_state g)) as [x m]. go_step.
  assert (forall kc', deref (set_mathrand g m) kc' = deref g kc') as Hd
    by (intros []; reflexivity).
  rewrite Hd.
  destruct (index_Ret (keys (deref g kc)) (x mod len (keys (deref g kc))))
    as (key & -> & Hk).
  { apply Z.mod_pos_bound. lia. }
  go_step. exists key, (set_mathrand g m).
  split; [reflexivity|]. split; [exact Hd|]. split; [reflexivity|].
  intros _ _. eapply list_elem_of_lookup_2, Hk.
Qed.

(** The attempt on the pool fills the pool of the group if need be and
    touches no other pool. *)
Lemma try_cache_pools (curveID : CurveID) (g : globals) :
  exists cached g',
    try_cache curveID g = Ret (cached, g')
    /\ (forall kc,
          initialized (deref g kc) = true
          \/ getCacheForCurveID curveID <> Some kc ->
          deref g' kc = deref g kc)
    /\ (forall kc, getCacheForCurveID curveID = Some kc ->
          initialized (deref g' kc) = true)
    /\ ((forall kc, getCacheForCurveID curveID = Some kc ->
           initialized (deref g kc) = true) ->
        cryptorand_Reader g' = cryptorand_Reader g).
Proof.
  unfold try_cache. pose proof (getCacheForCurveID_curve curveID) as Hagree.
  destruct (getCacheForCurveID curveID) as [cache|] eqn:Hc.
  2: { exists None, g. split; [reflexivity|]. repeat split; done. }
  destruct (curveForCurveID curveID) as [curve|]; [|done].
  destruct (initialized (deref g cache)) eqn:Hinit; cbn [negb]; go_step.
  - destruct (getRandomKey_slot cache g) as (key & g' & -> & Hd & Hr & _).
    exists key, g'. split; [reflexivity|].
    split; [intros kc _; apply Hd|].
    split; [intros kc [= <-]; rewrite Hd; exact Hinit|].
    intros _. exact Hr.
  - destruct (keyCache_init_fresh cache curve g Hinit)
      as (g1 & -> & Hd1 & _ & _ & Hframe).
    go_step.
    destruct (getRandomKey_slot cache g1) as (key & g' & -> & Hd & _ & _).
    exists key, g'. split; [reflexivity|].
    split; [|split].
    + intros kc [Hk | Hk]; rewrite Hd; apply Hframe; congruence.
    + intros kc [= <-]. rewrite Hd, Hd1. reflexivity.
    + intros Hall. specialize (Hall cache eq_refl). congruence.
Qed.

(** X16. What acquiring a key does to the pools: for every curve ID and
    every state, [generateECDHEKey] leaves every initialized pool as it was,
    so that a key handed out stays in its pool for later calls, leaves
    every pool of another group as it was, and leaves the pool of the
    requested group initialized; when that pool was initialized already, or
    the curve ID has no pool, [crypto/rand.Reader] is not read. *)
Theorem generateECDHEKey_pools (rand : Reader) (curveID : CurveID)
    (g : globals) :
  exists key err rand' g',
    generateECDHEKey rand curveID g = Ret (key, err, rand', g')
    /\ (forall kc,
          initialized (deref g kc) = true
          \/ getCacheForCurveID curveID <> Some kc ->
          deref g' kc = deref g kc)
    /\ (forall kc, getCacheForCurveID curveID = Some kc ->
          initialized (deref g' kc) = true)
    /\ ((forall kc, getCacheForCurveID curveID = Some kc ->
           initialized (deref g kc) = true) ->
        cryptorand_Reader g' = cryptorand_Reader g).
Proof.
  unfold generateECDHEKey.
  destruct (try_cache_pools curveID g) as (cached & g' & -> & H).
  go_step.
  destruct cached as [k|];
    [do 4 eexists; split; [reflexivity|exact H]|].
  destruct (curveForCurveID curveID) as [curve|].
  - destruct (GenerateKey curve rand) as [[key err] rand'].
    do 4 eexists. split; [reflexivity|exact H].
  - do 4 eexists. split; [reflexivity|exact H].
Qed.

(** With a generator that does not fail, the attempt on a pool that is
    not initialized, or is full, finds a key and leaves the pool full. *)
Lemma try_cache_full (curveID : CurveID) (cache : keyCache_ptr)
    (g : globals) :
  (forall c r, exists k r', GenerateKey c r = (Some k, None, r')) ->
  getCacheForCurveID curveID = Some cache ->
  initialized (deref g cache) = false \/ pool_full (deref g cache) ->
  exists k g',
    try_cache curveID g = Ret (Some k, g')
    /\ Some k ∈ keys (deref g' cache)
    /\ pool_full (deref g' cache).
Proof.
  intros Hgen Hc Hpool. unfold try_cache. rewrite Hc.
  pose proof (getCacheForCurveID_curve curveID) as Hagree. rewrite Hc in Hagree.
  destruct (curveForCurveID curveID) as [curve|]; [|done].
  assert (exists g1,
            (if negb (initialized (deref g cache))
             then keyCache_init cache curve g else Ret g) = Ret g1
            /\ pool_full (deref g1 cache)) as (g1 & -> & Hfull).
  { destruct (initialized (deref g cache)) eqn:Hinit; cbn [negb].
    - exists g. split; [reflexivity|].
      destruct Hpool as [[=]|Hfull]. exact Hfull.
    - destruct (keyCache_init_fresh cache curve g Hinit)
        as (g1 & -> & Hd1 & _).
      exists g1. split; [reflexivity|]. rewrite Hd1.
      split; [reflexivity|]. cbn [keys]. split.
      + intros E. apply (f_equal length) in E.
        rewrite generated_length in E. discriminate E.
      + apply generated_reliable, Hgen. }
  go_step.
  destruct (getRandomKey_slot cache g1) as (key & g' & -> & Hd & _ & Hin).
  destruct Hfull as (Hi & Hne & Hall).
  specialize (Hin Hi Hne).
  destruct key as [k|].
  - exists k, g'. split; [reflexivity|]. rewrite Hd. repeat split; done.
  - exfalso. eapply Forall_forall in Hall; [|exact Hin]. done.
Qed.

(** X17. With a key generator that does not fail, a supported curve is
    always served from the pool: where the pool of the group is not yet
    initialized, or is initialized with slots none of which is nil,
    [generateECDHEKey] returns a key held in the pool, without error and
    without reading the caller's random source, and leaves the pool
    initialized with no nil slot, so that the same holds for every later
    call. *)
Theorem generateECDHEKey_reliable (rand : Reader) (curveID : CurveID)
    (cache : keyCache_ptr) (g : globals) :
  (forall c r, exists k r', GenerateKey c r = (Some k, None, r')) ->
  getCacheForCurveID curveID = Some cache ->
  initialized (deref g cache) = false \/ pool_full (deref g cache) ->
  exists k g',
    generateECDHEKey rand curveID g = Ret (Some k, None, rand, g')
    /\ Some k ∈ keys (deref g' cache)
    /\ pool_full (deref g' cache).
Proof.
  intros Hgen Hc Hpool.
  destruct (try_cache_full curveID cache g Hgen Hc Hpool)
    as (k & g' & Htry & Hin & Hfull).
  exists k, g'. unfold generateECDHEKey. rewrite Htry. go_step.
  repeat split; (done || apply Hfull).
Qed.

(** X18. Curve of a curve ID and back: for a supported curve ID,
    [curveIDForCurve] gives back the ID [curveForCurveID] was given; the nil
    curve has no ID; and, the four ID constants being distinct,
    [curveForCurveID] gives back the curve [curveIDForCurve] was given. *)
Theorem curve_id_round_trip :
  (forall id curve,
     curveForCurveID id = Some curve ->
     curveIDForCurve (Some curve) = (id, true))
  /\ curveIDForCurve None = (0, false)
  /\ (NoDup [X25519; CurveP256; CurveP384; CurveP521] ->
      forall curve,
        (curveIDForCurve (Some curve)).2 = true
        /\ curveForCurveID (curveIDForCurve (Some curve)).1 = Some curve).
Proof.
  split; [|split; [reflexivity|]].
  - intros id curve. unfold curveForCurveID.
    destruct (Z.eqb_spec id X25519) as [->|]; [intros [= <-]; reflexivity|].
    destruct (Z.eqb_spec id CurveP256) as [->|]; [intros [= <-]; reflexivity|].
    destruct (Z.eqb_spec id CurveP384) as [->|]; [intros [= <-]; reflexivity|].
    destruct (Z.eqb_spec id CurveP521) as [->|]; [intros [= <-]; reflexivity|].
    discriminate.
  - intros Hdup curve.
    apply NoDup_cons in Hdup as [H1 Hdup].
    apply NoDup_cons in Hdup as [H2 Hdup].
    apply NoDup_cons in Hdup as [H3 _].
    apply not_elem_of_cons in H1 as [? H1].
    apply not_elem_of_cons in H1 as [? H1].
    apply not_elem_of_cons in H1 as [? _].
    apply not_elem_of_cons in H2 as [? H2].
    apply not_elem_of_cons in H2 as [? _].
    apply not_elem_of_cons in H3 as [? _].
    split; [destruct curve; reflexivity|].
    unfold curveForCurveID. destruct curve; cbn [curveIDForCurve fst].
    + rewrite Z.eqb_refl. reflexivity.
    + destruct (Z.eqb_spec CurveP256 X25519); [congruence|].
      rewrite Z.eqb_refl. reflexivity.
    + destruct (Z.eqb_spec CurveP384 X25519); [congruence|].
      destruct (Z.eqb_spec CurveP384 CurveP256); [congruence|].
      rewrite Z.eqb_refl. reflexivity.
    + destruct (Z.eqb_spec CurveP521 X25519); [congruence|].
      destruct (Z.eqb_spec CurveP521 CurveP256); [congruence|].
      destruct (Z.eqb_spec CurveP521 CurveP384); [congruence|].
      rewrite Z.eqb_refl. reflexivity.
Qed.

End MoreKeyPoolProperties.

Lemma keyCache_init_fills_witness :
  exists g',
    keyCache_init (env := sample_pool_env) ptr_P256 ecdh_P256
      (sample_globals 0) = Ret g'
    /\ initialized (deref g' ptr_P256) = true
    /\ len (keys (deref g' ptr_P256)) = 100
    /\ keys (deref g' ptr_P256)
       = (generated (env := sample_pool_env) ecdh_P256 100
            (cryptorand_Reader (sample_globals 0))).1
    /\ cryptorand_Reader g'
       = (generated (env := sample_pool_env) ecdh_P256 100
            (cryptorand_Reader (sample_globals 0))).2
    /\ forall kc', kc' <> ptr_P256 ->
         deref g' kc' = deref (sample_globals 0) kc'.
Proof.
  apply (keyCache_init_fills (env := sample_pool_env) ptr_P256 ecdh_P256
           (sample_globals 0)).
  reflexivity.
Defined.

(** In the sample environment, where every second generation fails, the
    pool has keys in its even slots only. *)
Example sample_pool_is_half_filled :
  take 4 (generated (env := sample_pool_env) ecdh_P256 100 0%nat).1
  = [Some 0%nat; None; Some 2%nat; None]
  /\ (generated (env := sample_pool_env) ecdh_P256 100 0%nat).2 = 100%nat.
Proof. split; vm_compute; reflexivity. Qed.

Lemma generateECDHEKey_reliable_witness :
  exists k g',
    generateECDHEKey (env := reliable_pool_env) 1000%nat 29
      (reliable_globals 7)
    = Ret (Some k, None, 1000%nat, g')
    /\ Some k ∈ keys (deref g' ptr_X25519)
    /\ pool_full (deref g' ptr_X25519).
Proof.
  apply (generateECDHEKey_reliable (env := reliable_pool_env) 1000%nat 29
           ptr_X25519 (reliable_globals 7)).
  - intros c r. exists r, (S r). reflexivity.
  - reflexivity.
  - left. reflexivity.
Defined.

(** The code points of the sample environments are distinct. *)
Example sample_curve_ids_distinct :
  NoDup [X25519 (KeyPoolEnv := sample_pool_env);
         CurveP256 (KeyPoolEnv := sample_pool_env);
         CurveP384 (KeyPoolEnv := sample_pool_env);
         CurveP521 (KeyPoolEnv := sample_pool_env)].
Proof. apply (bool_decide_unpack _). vm_compute. exact I. Qed.

(* ===================================================================== *)
(** * The errors of the decoders                                          *)
(* ===================================================================== *)

Lemma unmarshalUTLSSessionData_outcome (data : list byte) :
  exists r,
    unmarshalUTLSSessionData data = Ret r
    /\ error_or_value payload_error r
    /\ (r.2 = None -> r.1 <> None).
Proof.
  destruct (Z.lt_ge_cases (len data) 3) as [Hs|Hl].
  - eexists. split; [apply unmarshalUTLSSessionData_short, Hs|].
    split; [|discriminate]. split; [reflexivity | left; reflexivity].
  - destruct data as [|rt [|b0 [|b1 rest]]]; try (vm_compute in Hl; done).
    rewrite unmarshalUTLSSessionData_cons. cbv zeta.
    destruct (_ >? _); eexists; (split; [reflexivity|]).
    + split; [|discriminate]. split; [reflexivity | right; reflexivity].
    + split; [exact I | discriminate].
Qed.

Lemma uint16_range (x : Z) : 0 <= uint16 x < 65536.
Proof. apply Z.mod_pos_bound. lia. Qed.

Lemma readFields_outcome (remaining : nat) :
  forall (pre suf : list byte) (i : Z),
    0 <= i < 65536 ->
    exists r,
      readFields (pre ++ suf) remaining i (len pre) = Ret r
      /\ error_or_value container_error r.
Proof.
  induction remaining as [|remaining IH]; intros pre suf i Hi.
  - eexists. split; [reflexivity | exact I].
  - destruct (Z.lt_ge_cases (len suf) 5) as [Hshort|Hlong].
    { eexists. split; [apply readFields_header_incomplete, Hshort|].
      split; [reflexivity|]. right. left. eauto. }
    destruct suf as [|id0 [|id1 [|ver [|l0 [|l1 rest]]]]];
      try (vm_compute in Hlong; done).
    rewrite readFields_header. cbv zeta.
    pose proof (byte_to_Z_range l0). pose proof (byte_to_Z_range l1).
    pose proof (len_nonneg rest).
    set (n := byte_to_Z l0 * 256 + byte_to_Z l1) in *.
    destruct (Z.gtb_spec n (len rest)).
    { eexists. split; [reflexivity|]. split; [reflexivity|].
      right. right. left. eauto. }
    destruct (_ && _).
    { destruct (unmarshalUTLSSessionData_outcome (take (Z.to_nat n) rest))
        as ([u [e|]] & -> & Hr & _); eexists; (split; [reflexivity|]);
        [|exact I].
      destruct Hr as [-> He]. split; [reflexivity|]. do 3 right. exact He. }
    assert (pre ++ id0 :: id1 :: ver :: l0 :: l1 :: rest
            = (pre ++ id0 :: id1 :: ver :: l0 :: l1 :: take (Z.to_nat n) rest)
              ++ drop (Z.to_nat n) rest) as ->.
    { rewrite <- app_assoc. cbn [app]. rewrite take_drop. reflexivity. }
    replace (len pre + 5 + n)
      with (len (pre ++ id0 :: id1 :: ver :: l0 :: l1
                     :: take (Z.to_nat n) rest))
      by (len_simpl; lia).
    apply IH, uint16_range.
Qed.

(** X19. The outcomes of the container decoder: on every input it returns
    (nil, nil), or a value without error, or an error without value; the
    error is its own "too short", an error naming the index of a field
    whose header or data is incomplete, or an error of the payload decoder.
    The error "cannot read field count" is never returned: the test that
    guards it cannot succeed behind the length test. *)
Theorem unmarshalSessionExtra_outcomes (extraData : list byte) :
  exists r,
    unmarshalSessionExtra extraData = Ret r
    /\ error_or_value container_error r
    /\ r.2 <> Some (errors_New "invalid extra data: cannot read field count").
Proof.
  assert (exists r, unmarshalSessionExtra extraData = Ret r
                    /\ error_or_value container_error r) as (r & Hr & Hok).
  { destruct extraData as [|b [|c0 [|c1 body]]].
    - eexists. split; [reflexivity | exact I].
    - eexists. split; [reflexivity|]. split; [reflexivity | left; reflexivity].
    - eexists. split; [reflexivity|]. split; [reflexivity | left; reflexivity].
    - destruct (decide (b = SessionExtraVersion)) as [->|Hb].
      + rewrite unmarshalSessionExtra_version.
        change (SessionExtraVersion :: c0 :: c1 :: body)
          with ([SessionExtraVersion; c0; c1] ++ body).
        change 3 with (len [SessionExtraVersion; c0; c1]).
        apply readFields_outcome. lia.
      + exists (None, None). split; [|exact I].
        apply unmarshalSessionExtra_other_version; [done|].
        rewrite !len_cons. pose proof (len_nonneg body). lia. }
  exists r. split; [exact Hr|]. split; [exact Hok|].
  destruct r as [u [e|]]; [|discriminate]. cbn [snd].
  destruct Hok as [_ [-> | [(i & _ & ->) | [(i & _ & ->) | [-> | ->]]]]];
    discriminate.
Qed.
